(** * textadept-file-diff: the [diff] Lua binding over diff_match_patch

    The repository's one source file, [diff.cxx], is a Lua C module: it
    reads two strings from the Lua stack, calls the diff engine
    ([diff_main] with [checklines = false], then [diff_cleanupSemantic]) and
    returns the edit script to Lua as a flat table
    [{op, text, op, text, ...}].

    The development has two layers.
    - The binding is embedded from [diff.cxx] over a small model of the Lua
      C API it calls; the engine it links against is an interface
      ([diff_match_patch]) so that the binding's properties hold for
      every engine.
    - The engine itself lives in [diff_match_patch.h], which is not part of
      the sources at hand.  Module [Engine] models it from the written
      specification (section 4 of the spec), and the engine-level properties
      are settled against that model. *)

From Stdlib Require Import List ZArith Ascii Bool Lia Arith PeanoNat.
From Stdlib Require String DecimalString.
Import ListNotations.
Local Open Scope Z_scope.

Set Implicit Arguments.

(** ** Strings and edit operations *)

(** [std::string]: a sequence of bytes (code units). *)
Definition string_t := list ascii.

Definition NUL : ascii := Ascii.zero.

(** What a [const char *] pointing at the bytes [s] (followed by the
    terminating NUL) denotes as a C string: the bytes before the first NUL.
    This is both the conversion of a [const char *] to [std::string] and
    what [lua_pushstring]
    copies. *)
Fixpoint c_string (s : string_t) : string_t :=
  match s with
  | [] => []
  | c :: s' => if Ascii.eqb c NUL then [] else c :: c_string s'
  end.

Definition nul_free (s : string_t) : Prop := ~ In NUL s.

Fixpoint nul_freeb (s : string_t) : bool :=
  match s with
  | [] => true
  | c :: s' => negb (Ascii.eqb c NUL) && nul_freeb s'
  end.

(** [enum Operation] of the engine. *)
Inductive Operation := DELETE | INSERT | EQUAL.

Definition Operation_eqb (a b : Operation) : bool :=
  match a, b with
  | DELETE, DELETE | INSERT, INSERT | EQUAL, EQUAL => true
  | _, _ => false
  end.

(** [class Diff]: one edit operation. *)
Record Diff := mkDiff { operation : Operation; text : string_t }.

(** [typedef std::list<Diff> Diffs]. *)
Definition Diffs := list Diff.

(** Modelled from the spec: the numeric values of [enum Operation], which is
    declared in diff_match_patch.h (absent).  Section 6 of the spec fixes the
    codes the host sees: -1 DELETE, 0 EQUAL, +1 INSERT.  The binding pushes
    [diff.operation] unchanged, so these are the enum's values. *)
Definition operation_value (op : Operation) : Z :=
  match op with
  | DELETE => -1
  | EQUAL => 0
  | INSERT => 1
  end.

(** The part of [diff_match_patch<std::string>] the binding uses.  The object
    is default-constructed inside every call of [diff] (diff.cxx:13), so its
    methods are functions of their arguments.  [diff_cleanupSemantic] updates
    its argument in place; here it returns the updated list. *)
Class diff_match_patch := {
  diff_main : string_t -> string_t -> bool -> Diffs;
  diff_cleanupSemantic : Diffs -> Diffs
}.

(** ** C integers *)

Definition INT_MAX : Z := 2147483647.

(** Two's-complement wrap-around of a value into [int]. *)
Definition int_wrap (z : Z) : Z := (z + 2147483648) mod 4294967296 - 2147483648.

(** ** The Lua C API, as far as diff.cxx uses it *)

Module Lua.

(** [lua_Number] and the two conversions the binding relies on: the C
    conversion of an [int] to [lua_Number] done at the call of
    [lua_pushnumber], and the number-to-string coercion [lua_tolstring]
    applies to numeric arguments. *)
Class Number := {
  lua_Number : Type;
  number_of_int : Z -> lua_Number;
  number_tostring : lua_Number -> string_t
}.

(** The C functions this module registers. *)
Inductive cfunction := CF_diff.

Section Values.
Context {LN : Number}.

(** Lua values.  A table is represented by its integer-keyed entries in
    insertion order, which are the only entries diff.cxx writes; the table
    built by [diff] is referenced from its stack slot alone while it is
    filled, so it is kept in the slot.  [LOpaque] stands for the kinds of
    value the binding never inspects (userdata, threads, Lua functions). *)
#[warnings="-register-all"]
Inductive value :=
| LNil
| LBoolean (b : bool)
| LNumber (n : lua_Number)
| LString (s : string_t)
| LTable (t : list (Z * value))
| LCFunction (f : cfunction)
| LOpaque (tag : nat).

Definition table := list (Z * value).

(** [lua_State] as a C function sees it: state shared with the rest of the
    host (globals, registry) and the stack frame of the running call, bottom
    first, so that index 1 is the first argument and -1 the top. *)
Record lua_State := mkState {
  registry : list (string_t * value);
  stack : list value
}.

(** Errors raised through [lua_error] (a longjmp out of the C function):
    [luaL_argerror], "bad argument #arg (string expected, got ...)".
    [ApiViolation] marks a call that breaks a precondition of the C API
    (undefined behaviour in C). *)
Inductive error :=
| BadArgument (arg : Z)
| ApiViolation.

(** A C function body either returns normally, with a value and the new
    state, or raises. *)
Inductive outcome (A : Type) :=
| Returns (a : A) (L : lua_State)
| Raises (e : error).
Arguments Raises {A} e.

Definition M (A : Type) := lua_State -> outcome A.

Definition ret {A} (a : A) : M A := fun L => Returns a L.

Definition bind {A B} (m : M A) (k : A -> M B) : M B :=
  fun L => match m L with
           | Returns a L' => k a L'
           | Raises e => Raises e
           end.

Definition raise {A} (e : error) : M A := fun _ => Raises e.

End Values.

Arguments outcome {LN} A.
Arguments Returns {LN A} a L.
Arguments Raises {LN A} e.
Arguments M {LN} A.

Declare Scope lua_scope.
Delimit Scope lua_scope with lua.
Notation "x <- m ;; k" := (bind m (fun x => k))
  (at level 61, m at next level, right associativity) : lua_scope.
Notation "m ;; k" := (bind m (fun _ => k))
  (at level 61, right associativity) : lua_scope.

Section API.
Context {LN : Number}.
Local Open Scope lua_scope.

Definition lua_gettop (L : lua_State) : Z := Z.of_nat (length (stack L)).

(** Position in [stack] of an acceptable index, [None] for an index outside
    the frame. *)
Definition index2addr (L : lua_State) (idx : Z) : option nat :=
  let top := lua_gettop L in
  if 0 <? idx then
    if idx <=? top then Some (Z.to_nat (idx - 1)) else None
  else if (idx <? 0) && (- top <=? idx) then Some (Z.to_nat (top + idx))
  else None.

Definition stack_get (L : lua_State) (idx : Z) : option value :=
  match index2addr L idx with
  | Some i => nth_error (stack L) i
  | None => None
  end.

Fixpoint list_set {A} (l : list A) (i : nat) (a : A) : list A :=
  match l, i with
  | [], _ => []
  | _ :: l', O => a :: l'
  | x :: l', S i' => x :: list_set l' i' a
  end.

Definition stack_set (L : lua_State) (i : nat) (v : value) : lua_State :=
  mkState (registry L) (list_set (stack L) i v).

Definition push (v : value) : M unit :=
  fun L => Returns tt (mkState (registry L) (stack L ++ [v])).

(** [luaL_checkstring(L, arg)]: the argument's bytes when it is a string; a
    number is converted to a string in its stack slot first; anything else,
    or no argument at all, raises the argument error.  The result stands
    for the [const char *] handed back: the bytes of the Lua string. *)
Definition luaL_checkstring (arg : Z) : M string_t :=
  fun L =>
    match index2addr L arg with
    | Some i =>
        match nth_error (stack L) i with
        | Some (LString s) => Returns s L
        | Some (LNumber n) =>
            let s := number_tostring n in
            Returns s (stack_set L i (LString s))
        | _ => Raises (BadArgument arg)
        end
    | None => Raises (BadArgument arg)
    end.

(** [lua_createtable(L, narr, nrec)]: pushes a new empty table; the two
    sizes are preallocation hints. *)
Definition lua_createtable (narr nrec : Z) : M unit := push (LTable []).

(** [lua_pushnumber(L, n)]. *)
Definition lua_pushnumber (n : lua_Number) : M unit := push (LNumber n).

(** [lua_pushstring(L, s)] with [s] a [const char *]: pushes a copy of the C
    string. *)
Definition lua_pushstring (s : string_t) : M unit := push (LString (c_string s)).

(** [lua_pushcfunction(L, f)]. *)
Definition lua_pushcfunction (f : cfunction) : M unit := push (LCFunction f).

Fixpoint table_remove (t : table) (n : Z) : table :=
  match t with
  | [] => []
  | (k, v) :: t' => if k =? n then table_remove t' n else (k, v) :: table_remove t' n
  end.

Fixpoint table_get (t : table) (n : Z) : value :=
  match t with
  | [] => LNil
  | (k, v) :: t' => if k =? n then v else table_get t' n
  end.

(** Raw assignment [t[n] = v]: storing nil removes the entry. *)
Definition table_set (t : table) (n : Z) (v : value) : table :=
  match v with
  | LNil => table_remove t n
  | _ => table_remove t n ++ [(n, v)]
  end.

(** [lua_rawseti(L, idx, n)]: [t[n] = v] for the table [t] at [idx] and the
    value [v] on top of the stack, which is popped. *)
Definition lua_rawseti (idx n : Z) : M unit :=
  fun L =>
    match index2addr L idx, stack_get L (-1) with
    | Some i, Some v =>
        match nth_error (stack L) i with
        | Some (LTable t) =>
            let st := list_set (stack L) i (LTable (table_set t n v)) in
            Returns tt (mkState (registry L) (removelast st))
        | _ => Raises ApiViolation
        end
    | _, _ => Raises ApiViolation
    end.

(** The sequence part of a table: [t[1], t[2], ...] up to the first nil
    (what [#t] and [ipairs] see). *)
Fixpoint table_seq_from (fuel : nat) (t : table) (n : Z) : list value :=
  match fuel with
  | O => []
  | S fuel' =>
      match table_get t n with
      | LNil => []
      | v => v :: table_seq_from fuel' t (n + 1)
      end
  end.

Definition table_seq (t : table) : list value := table_seq_from (length t) t 1.

End API.
End Lua.

Import Lua.

(** ** diff.cxx *)

(** The order in which the two [luaL_checkstring] calls that are arguments of
    one call expression are evaluated is left to the C++ compiler. *)
Inductive arg_order := LeftToRight | RightToLeft.

Section Binding.
Context {LN : Number} {dmp : diff_match_patch}.
Local Open Scope lua_scope.

(** diff.cxx:14-16: the edit script computed for the two [std::string]
    arguments. *)
Definition diff_ops (text1 text2 : string_t) : Diffs :=
  diff_cleanupSemantic (diff_main text1 text2 false).

(** diff.cxx:19-22, the loop over [diffs]; [len] is the [int] counter, and
    the result is its final value. *)
Fixpoint diff_fill (diffs : Diffs) (len : Z) : M Z :=
  match diffs with
  | [] => ret len
  | diff :: rest =>
      lua_pushnumber (number_of_int (operation_value (operation diff))) ;;
      lua_rawseti (-2) len ;;
      let len1 := int_wrap (len + 1) in
      lua_pushstring (text diff) ;;
      lua_rawseti (-2) len1 ;;
      diff_fill rest (int_wrap (len1 + 1))
  end.

(** diff.cxx:14-15, the two argument checks in the order the compiler
    chose; each [const char *] becomes a [std::string]. *)
Definition diff_args (ord : arg_order) : M (string_t * string_t) :=
  match ord with
  | LeftToRight =>
      a <- luaL_checkstring 1 ;; b <- luaL_checkstring 2 ;;
      ret (c_string a, c_string b)
  | RightToLeft =>
      b <- luaL_checkstring 2 ;; a <- luaL_checkstring 1 ;;
      ret (c_string a, c_string b)
  end.

(** diff.cxx:12-24, [static int diff(lua_State *L)]; the result is the
    number of values returned to Lua. *)
Definition diff (ord : arg_order) : M Z :=
  ab <- diff_args ord ;;
  let diffs := diff_ops (fst ab) (snd ab) in
  lua_createtable (int_wrap (Z.of_nat (length diffs) * 2)) 0 ;;
  _ <- diff_fill diffs 1 ;;
  ret 1.

(** What Lua calls for a registered C function. *)
Definition cfunction_body (ord : arg_order) (f : cfunction) : M Z :=
  match f with
  | CF_diff => diff ord
  end.

(** diff.cxx:27-29. *)
Definition luaopen_diff : M Z :=
  lua_pushcfunction CF_diff ;; ret 1.

(** diff.cxx:32-34. *)
Definition luaopen_file_diff_diff : M Z := luaopen_diff.

(** diff.cxx:35-37. *)
Definition luaopen_file_diff_diffosx : M Z := luaopen_diff.

(** The values a call hands back to its caller: the top [n] stack slots. *)
Definition results (o : outcome Z) : option (list value) :=
  match o with
  | Returns n L => Some (skipn (length (stack L) - Z.to_nat n) (stack L))
  | Raises _ => None
  end.

(** A call from the host: the function runs on a fresh frame holding the
    arguments, over whatever state the host has accumulated. *)
Definition call (f : M Z) (reg : list (string_t * value)) (args : list value)
  : outcome Z :=
  f (mkState reg args).

(** The flat encoding of an edit script (spec section 6). *)
Definition flat (diffs : Diffs) : list value :=
  flat_map (fun d => [LNumber (number_of_int (operation_value (operation d)));
                      LString (text d)]) diffs.

End Binding.

(** ** The engine, modelled from the specification

    diff_match_patch.h is not among the sources, so what [diff_main] and
    [diff_cleanupSemantic] compute is taken from the specification: its
    section 4 describes the engine stage by stage, and Module [Engine]
    follows that text.  Each stage says which sentences of the spec it
    renders and what it settles where they leave a choice. *)

(** The first and the second input an edit script stands for: the texts of
    its EQUAL and DELETE operations, resp. of its EQUAL and INSERT
    operations, in order. *)
Definition diff_text1 (diffs : Diffs) : string_t :=
  flat_map (fun d => match operation d with INSERT => [] | _ => text d end) diffs.

Definition diff_text2 (diffs : Diffs) : string_t :=
  flat_map (fun d => match operation d with DELETE => [] | _ => text d end) diffs.

(** A canonical edit script (spec section 3): no operation has an empty
    text, no two neighbours have the same kind, and an INSERT is never
    directly followed by a DELETE. *)
Definition canonical (diffs : Diffs) : Prop :=
  (forall d, In d diffs -> text d <> [])
  /\ (forall l1 d e l2, diffs = l1 ++ d :: e :: l2 ->
        operation d <> operation e
        /\ ~ (operation d = INSERT /\ operation e = DELETE)).

Module Engine.

Local Open Scope nat_scope.

Fixpoint string_eqb (a b : string_t) : bool :=
  match a, b with
  | [], [] => true
  | x :: a', y :: b' => Ascii.eqb x y && string_eqb a' b'
  | _, _ => false
  end.

(** One operation, or none when its text is empty ("omit empty parts"). *)
Definition op (o : Operation) (s : string_t) : Diffs :=
  match s with
  | [] => []
  | _ => [mkDiff o s]
  end.

(** *** Common affixes (spec 4.1, step 2)

    "Strip the longest common prefix P; strip the longest common suffix S." *)

Fixpoint common_prefix (a b : string_t) : string_t :=
  match a, b with
  | x :: a', y :: b' => if Ascii.eqb x y then x :: common_prefix a' b' else []
  | _, _ => []
  end.

Definition common_suffix (a b : string_t) : string_t :=
  rev (common_prefix (rev a) (rev b)).

(** [s] without its first [n] bytes, resp. without its last [n] bytes. *)
Definition drop_front (n : nat) (s : string_t) : string_t := skipn n s.
Definition drop_back (n : nat) (s : string_t) : string_t :=
  firstn (length s - n) s.

Fixpoint starts_with (p s : string_t) : bool :=
  match p, s with
  | [], _ => true
  | x :: p', y :: s' => Ascii.eqb x y && starts_with p' s'
  | _ :: _, [] => false
  end.

Definition ends_with (x s : string_t) : bool := starts_with (rev x) (rev s).

(** Position of the first occurrence of [needle] in [hay]. *)
Fixpoint find_sub (needle hay : string_t) : option nat :=
  if starts_with needle hay then Some 0
  else match hay with
       | [] => None
       | _ :: hay' => option_map S (find_sub needle hay')
       end.

(** *** Half-match heuristic (spec 4.3)

    "Find a substring of length >= |longer|/2 that appears in both.  Only
    applied when the larger input exceeds a small threshold (e.g., 10) AND
    |shorter| >= |longer|/4.  Try seeds at positions ceil(|longer|/4) and
    ceil(|longer|/2) in the longer input; for each, locate all occurrences
    in the shorter input and extend matches bidirectionally.  Tie-break:
    prefer the longer overall match; among equal-length matches, prefer the
    one whose surrounding prefixes are shorter."

    The spec does not give the length of a seed; a quarter of the longer
    input is taken, the least length for which a common substring of half
    the longer input always contains one of the two seeds. *)

(** The five components, named for the longer and the shorter input. *)
Record half_match_t := mkHalf {
  long_prefix : string_t;
  long_suffix : string_t;
  short_prefix : string_t;
  short_suffix : string_t;
  common_middle : string_t
}.

(** The match anchored at position [i] of the longer and [j] of the shorter
    input, extended in both directions as far as the inputs agree. *)
Definition half_match_at (long short : string_t) (i j : nat) : half_match_t :=
  let lp := firstn i long in
  let ls := skipn i long in
  let sp := firstn j short in
  let ss := skipn j short in
  let sfx := common_suffix lp sp in
  let pfx := common_prefix ls ss in
  mkHalf (drop_back (length sfx) lp) (drop_front (length pfx) ls)
         (drop_back (length sfx) sp) (drop_front (length pfx) ss)
         (sfx ++ pfx).

(** All positions at which [seed] occurs in [short]. *)
Definition occurrences (seed short : string_t) : list nat :=
  filter (fun j => starts_with seed (skipn j short)) (seq 0 (S (length short))).

(** The tie-break: the longer middle wins; among equally long ones, the one
    with the shorter prefixes. *)
Definition better (h best : half_match_t) : bool :=
  (length (common_middle best) <? length (common_middle h))
  || ((length (common_middle best) =? length (common_middle h))
      && (length (long_prefix h) + length (short_prefix h)
          <? length (long_prefix best) + length (short_prefix best))).

Fixpoint best_of (hs : list half_match_t) (best : option half_match_t)
  : option half_match_t :=
  match hs with
  | [] => best
  | h :: hs' =>
      match best with
      | None => best_of hs' (Some h)
      | Some b => best_of hs' (Some (if better h b then h else b))
      end
  end.

(** Candidates for the seed of a quarter of the longer input's length that
    starts at position [i] of it. *)
Definition half_match_seed (long short : string_t) (i : nat) : list half_match_t :=
  let seed := firstn (length long / 4) (skipn i long) in
  map (half_match_at long short i) (occurrences seed short).

Definition ceil_div (n k : nat) : nat := (n + k - 1) / k.

Definition half_match_long (long short : string_t) : option half_match_t :=
  if (10 <? length long) && (length long <=? 4 * length short) then
    match best_of (half_match_seed long short (ceil_div (length long) 4)
                   ++ half_match_seed long short (ceil_div (length long) 2))
                  None with
    | Some h =>
        if length long <=? 2 * length (common_middle h) then Some h else None
    | None => None
    end
  else None.

(** Modelled from the spec: the half-match of spec 4.3 (absent with
    diff_match_patch.h).  The result is the five components for the inputs
    in their own order, (A-prefix, A-suffix, B-prefix, B-suffix, common
    middle), "or null". *)
Definition half_match (a b : string_t)
  : option (string_t * string_t * string_t * string_t * string_t) :=
  if length b <? length a then
    match half_match_long a b with
    | Some h => Some (long_prefix h, long_suffix h,
                      short_prefix h, short_suffix h, common_middle h)
    | None => None
    end
  else
    match half_match_long b a with
    | Some h => Some (short_prefix h, short_suffix h,
                      long_prefix h, long_suffix h, common_middle h)
    | None => None
    end.

(** *** Bisect engine (spec 4.4)

    "For d = 0, 1, ... up to MAX: forward pass: for k in [-d..d] step 2,
    extend the furthest-reaching D-path on diagonal k by choosing the better
    of (down from k+1) and (right from k-1), then snake along matches.  If
    delta is odd and k lies within the reverse window and forward x has
    crossed the reverse x on this diagonal, a midpoint has been found.
    Reverse pass: symmetric, anchored at (N,M).  If delta is even and overlap
    occurs, midpoint found."

    The two V-arrays are "ephemeral to one bisect call, never observed
    externally"; each is kept here as the row of entries the last pass
    wrote.  A point is written [(x, y)] with its [y] instead of its diagonal
    [k = x - y]. *)

(** A point [(x, y)] of the edit graph; its diagonal is [x - y]. *)
Definition point := (nat * nat)%type.

(** Follow the matches from a point. *)
Definition snake (a b : string_t) (p : point) : point :=
  let n := length (common_prefix (skipn (fst p) a) (skipn (snd p) b)) in
  (fst p + n, snd p + n).

Definition down (p : point) : point := (fst p, S (snd p)).
Definition right (p : point) : point := (S (fst p), snd p).

(** One pass of the D-path search.  [row] holds the furthest-reaching points
    of the previous stage on the diagonals [-d, -d+2, .., d], that is the
    entries of the V-array the pass reads; the result holds the points of the
    next stage on [-d-1, .., d+1].  On an inner diagonal [k] the better of
    "down from k+1" and "right from k-1" is taken, then the snake. *)
Fixpoint extend_row (a b : string_t) (row : list point) : list point :=
  match row with
  | [] => []
  | p :: tl =>
      match tl with
      | [] => [snake a b (right p)]
      | q :: _ =>
          snake a b (if fst p <? fst q then down q else right p)
          :: extend_row a b tl
      end
  end.

(** Stage 0 is the snake from the origin. *)
Definition next_row (a b : string_t) (row : list point) : list point :=
  match row with
  | [] => [snake a b (0, 0)]
  | p :: _ => snake a b (down p) :: extend_row a b row
  end.

(** A path may run off the edit graph; only a point inside it is tested for
    the overlap. *)
Definition in_grid (N M : nat) (p : point) : bool :=
  (fst p <=? N) && (snd p <=? M).

(** A forward point [p] and a reverse point [q] (measured from [(N, M)]) lie
    on one diagonal and the paths have met or crossed. *)
Definition crossed (N M : nat) (p q : point) : bool :=
  (fst p + fst q + M =? N + snd p + snd q) && (N <=? fst p + fst q).

(** "[k] lies within the window" of the other search and the paths have
    crossed: the other row holds a point of the diagonal of [p] that [p]
    has met. *)
Definition overlap (N M : nat) (others : list point) (p : point) : bool :=
  in_grid N M p && existsb (crossed N M p) others.

(** The loop over [d].  [fwd] and [rev] are the rows of the stage before;
    the reverse pass runs on the reversed inputs [ra], [rb].  With an odd
    delta the forward pass looks for the overlap, with an even delta the
    reverse pass ([N + M] has the parity of delta).  The spec does not say
    which point of an overlap is "the" midpoint; it is the point of the
    running pass at which the overlap is found. *)
Fixpoint bisect_search (a b ra rb : string_t) (N M : nat) (stages : nat)
    (fwd rev : list point) : option point :=
  match stages with
  | O => None
  | S stages' =>
      let fwd' := next_row a b fwd in
      match (if Nat.odd (N + M) then find (overlap N M rev) fwd' else None) with
      | Some p => Some p
      | None =>
          let rev' := next_row ra rb rev in
          match (if Nat.even (N + M) then find (overlap N M fwd') rev'
                 else None) with
          | Some q => Some (N - fst q, M - snd q)
          | None => bisect_search a b ra rb N M stages' fwd' rev'
          end
      end
  end.

(** Modelled from the spec: the midpoint search of the bisect engine, spec
    4.4 (absent with diff_match_patch.h), for [d = 0 .. MAX] with
    [MAX = N + M].  There is no deadline: the binding passes none. *)
Definition bisect_midpoint (a b : string_t) : option point :=
  bisect_search a b (rev a) (rev b) (length a) (length b)
    (S (length a + length b)) [] [].

(** *** Shortcuts and decomposition (spec 4.2)

    "If A' is a substring of B': return [INSERT prefix, EQUAL A', INSERT
    suffix] (omit empty parts).  Symmetric for B' in A' with DELETEs.  If
    min(|A'|,|B'|) == 1 and the shorter is not found in the longer: return
    [DELETE A', INSERT B'].  Otherwise attempt the half-match heuristic.  On
    success, recurse into the two halves and concatenate with the shared
    middle as EQUAL.  On failure, hand off to bisect."  The empty-input
    cases, which section 2 assigns to this resolver, come first. *)

Section Compute.
(** The recursive call on a smaller pair of inputs. *)
Variable rec : string_t -> string_t -> option Diffs.

Definition both (x y : option Diffs) (mid : Diffs) : option Diffs :=
  match x, y with
  | Some dx, Some dy => Some (dx ++ mid ++ dy)
  | _, _ => None
  end.

(** "On midpoint (x,y): recursively diff A'[0..x] vs B'[0..y] and A'[x..N]
    vs B'[y..M]; concatenate results."  Without a midpoint the result is
    the fallback [DELETE A', INSERT B']. *)
Definition diff_bisect (a b : string_t) : option Diffs :=
  match bisect_midpoint a b with
  | Some (x, y) =>
      both (rec (firstn x a) (firstn y b)) (rec (skipn x a) (skipn y b)) []
  | None => Some [mkDiff DELETE a; mkDiff INSERT b]
  end.

(** Modelled from the spec: the resolver of spec 4.2 (absent with
    diff_match_patch.h); the first occurrence is taken where the shorter
    input occurs more than once. *)
Definition diff_compute (a b : string_t) : option Diffs :=
  match a, b with
  | [], _ => Some [mkDiff INSERT b]
  | _, [] => Some [mkDiff DELETE a]
  | _, _ =>
  match find_sub a b with
  | Some i =>
      Some (op INSERT (firstn i b) ++ op EQUAL a
            ++ op INSERT (skipn (i + length a) b))
  | None =>
  match find_sub b a with
  | Some i =>
      Some (op DELETE (firstn i a) ++ op EQUAL b
            ++ op DELETE (skipn (i + length b) a))
  | None =>
      if Nat.min (length a) (length b) =? 1 then
        Some [mkDiff DELETE a; mkDiff INSERT b]
      else
        match half_match a b with
        | Some (a1, a2, b1, b2, mid) =>
            both (rec a1 b1) (rec a2 b2) [mkDiff EQUAL mid]
        | None => diff_bisect a b
        end
  end end end.

End Compute.

(** *** Top-level diff, steps 1 to 4 (spec 4.1)

    "1. If A == B: return [EQUAL A] (or empty diff if both empty).  2. Strip
    the longest common prefix P; strip the longest common suffix S.  3.
    Recursively compute diff(A', B') via 4.2.  4. Prepend [EQUAL P] if P
    nonempty; append [EQUAL S] if S nonempty." *)

(** Modelled from the spec: steps 1 to 4 of the top-level diff (absent with
    diff_match_patch.h).  [fuel] bounds the depth of the recursion; [None]
    means it ran out. *)
Fixpoint diff_rec (fuel : nat) (a b : string_t) : option Diffs :=
  match fuel with
  | O => None
  | S fuel' =>
      if string_eqb a b then Some (op EQUAL a)
      else
        let p := common_prefix a b in
        let a1 := drop_front (length p) a in
        let b1 := drop_front (length p) b in
        let s := common_suffix a1 b1 in
        match diff_compute (diff_rec fuel')
                (drop_back (length s) a1) (drop_back (length s) b1) with
        | Some ds => Some (op EQUAL p ++ ds ++ op EQUAL s)
        | None => None
        end
  end.

(** The edit script before the merge pass.  Every recursive call is on a
    strictly shorter pair, so this much fuel is never used up (lemma
    [diff_rec_total]) and the [None] branch is never taken. *)
Definition diff_raw (a b : string_t) : Diffs :=
  match diff_rec (S (length a + length b)) a b with
  | Some ds => ds
  | None => []
  end.

(** *** Merge / normalization (spec 4.5)

    "Walk the sequence, maintaining running counts of pending INSERT and
    DELETE text since the last EQUAL.  On hitting an EQUAL (or end): factor
    out the longest common prefix of pending insert/delete into a preceding
    EQUAL; factor out the longest common suffix into the following EQUAL;
    emit at most one DELETE and one INSERT (in that order) for what remains.
    Then pass once more to coalesce adjacent same-kind ops and drop empties.
    Finally [the single-edit shift rule]; iterate to fixpoint." *)

(** The pending delete and insert text, with the common prefix and suffix
    factored out as EQUALs around at most one DELETE and one INSERT. *)
Definition flush (del ins : string_t) : Diffs :=
  let p := common_prefix del ins in
  let del1 := drop_front (length p) del in
  let ins1 := drop_front (length p) ins in
  let s := common_suffix del1 ins1 in
  [mkDiff EQUAL p;
   mkDiff DELETE (drop_back (length s) del1);
   mkDiff INSERT (drop_back (length s) ins1);
   mkDiff EQUAL s].

(** The walk: [del] and [ins] are the pending texts since the last EQUAL.
    An EQUAL without text separates no two edits (they are "equal-position
    edits", spec section 2) and is dropped here rather than in the second
    pass. *)
Fixpoint merge_walk (diffs : Diffs) (del ins : string_t) : Diffs :=
  match diffs with
  | [] => flush del ins
  | d :: rest =>
      match operation d with
      | DELETE => merge_walk rest (del ++ text d) ins
      | INSERT => merge_walk rest del (ins ++ text d)
      | EQUAL =>
          match text d with
          | [] => merge_walk rest del ins
          | _ => flush del ins ++ d :: merge_walk rest [] []
          end
      end
  end.

(** The second pass: drop empties, join neighbours of one kind. *)
Fixpoint coalesce (diffs : Diffs) : Diffs :=
  match diffs with
  | [] => []
  | d :: rest =>
      match text d with
      | [] => coalesce rest
      | _ =>
          match coalesce rest with
          | e :: r =>
              if Operation_eqb (operation d) (operation e)
              then mkDiff (operation d) (text d ++ text e) :: r
              else d :: e :: r
          | [] => [d]
          end
      end
  end.

Definition normalize (diffs : Diffs) : Diffs := coalesce (merge_walk diffs [] []).

Definition is_equal (d : Diff) : bool := Operation_eqb (operation d) EQUAL.

(** The single-edit shift.  The spec words it as "where an EQUAL lies
    between two edits and is short enough that it is entirely a
    prefix/suffix of an adjacent edit's text, shift the boundary to collapse
    it".  It is read as the rule its name states: a single edit between two
    EQUALs whose text ends with the EQUAL before it, or starts with the EQUAL
    after it, is moved over that EQUAL, which thereby joins the other one
    (read with an EQUAL between two edits, the rule would undo its own steps
    and the iteration would not end).  The first place where the rule
    applies is rewritten; [None] when there is none. *)
Fixpoint shift_once (diffs : Diffs) : option Diffs :=
  match diffs with
  | [] => None
  | e1 :: tl =>
      match tl with
      | x :: e2 :: rest =>
          if is_equal e1 && negb (is_equal x) && is_equal e2 then
            if ends_with (text e1) (text x) then
              Some (mkDiff (operation x)
                      (text e1 ++ drop_back (length (text e1)) (text x))
                    :: mkDiff EQUAL (text e1 ++ text e2) :: rest)
            else if starts_with (text e2) (text x) then
              Some (mkDiff EQUAL (text e1 ++ text e2)
                    :: mkDiff (operation x)
                         (drop_front (length (text e2)) (text x) ++ text e2)
                    :: rest)
            else option_map (cons e1) (shift_once tl)
          else option_map (cons e1) (shift_once tl)
      | _ => None
      end
  end.

(** Normalize, shift, and again, until no shift applies. *)
Fixpoint merge_iter (fuel : nat) (diffs : Diffs) : Diffs :=
  let diffs1 := normalize diffs in
  match fuel with
  | O => diffs1
  | S fuel' =>
      match shift_once diffs1 with
      | Some diffs2 => merge_iter fuel' diffs2
      | None => diffs1
      end
  end.

(** Twice the length of the texts plus the number of operations that have a
    text.  A pass of [normalize] does not raise it and a shift lowers it
    (lemmas [normalize_weight], [shift_once_weight]), so the iteration is at
    a fixpoint before this much fuel is gone. *)
Definition merge_weight (diffs : Diffs) : nat :=
  fold_right (fun d w => 2 * length (text d) + Nat.min 1 (length (text d)) + w)
    0 diffs.

(** Modelled from the spec: the merge pass of spec 4.5 (absent with
    diff_match_patch.h). *)
Definition cleanup_merge (diffs : Diffs) : Diffs :=
  merge_iter (merge_weight diffs) diffs.

(** *** Semantic cleanup (spec 4.6)

    "Boundary alignment.  For each EQUAL sandwiched between two edits, score
    both ways it could be shifted using a boundary-quality score over the
    six characters at the seam: +6 for a non-alphanumeric on either side of
    the seam, +5 for whitespace, +4 for a line break, +3 for a blank line
    boundary (double line break), else 0; sum scores of both seams after the
    shift and adopt the shift that strictly improves total score.
    Short-equality elimination.  Walk the diff; whenever an EQUAL is shorter
    than the largest edit on either side AND shorter than a fixed threshold
    (commonly 4), absorb it into surrounding edits (convert to combined
    DELETE+INSERT spanning the region), then re-coalesce.  After both
    sub-passes, re-run 4.5 merge to restore canonical form."

    Boundary alignment is read, like the shift rule of the merge pass, for an
    edit between two EQUALs: only then can a boundary move without changing
    the two texts.  The four scores add up, so that a blank line counts more
    than a line break, a line break more than other whitespace, and that
    more than another non-alphanumeric; where a side of the seam has no
    character it contributes nothing.  Short-equality elimination is one
    walk; "on either side" is taken as on each of the two sides. *)

Definition is_alnum (c : ascii) : bool :=
  let n := nat_of_ascii c in
  ((48 <=? n) && (n <=? 57)) || ((65 <=? n) && (n <=? 90))
  || ((97 <=? n) && (n <=? 122)).

Definition is_linebreak (c : ascii) : bool :=
  let n := nat_of_ascii c in (n =? 10) || (n =? 13).

Definition is_space (c : ascii) : bool :=
  let n := nat_of_ascii c in (n =? 32) || ((9 <=? n) && (n <=? 13)).

Definition LF : ascii := ascii_of_nat 10.
Definition CR : ascii := ascii_of_nat 13.

(** A double line break within the three characters before the seam, or
    within the three after it. *)
Definition blank_line (one two : string_t) : bool :=
  ends_with [LF; LF] one || ends_with [LF; CR; LF] one
  || starts_with [LF; LF] two || starts_with [LF; CR; LF] two
  || starts_with [CR; LF; LF] two.

Definition on_seam (f : ascii -> bool) (one two : string_t) : bool :=
  match rev one with c :: _ => f c | [] => false end
  || match two with c :: _ => f c | [] => false end.

(** The boundary-quality score of the seam between [one] and [two]: +6 for
    a non-alphanumeric on either side, +5 for whitespace, +4 for a line
    break, +3 for a blank line, else 0. *)
Definition boundary_score (one two : string_t) : nat :=
  (if on_seam (fun c => negb (is_alnum c)) one two then 6 else 0)
  + (if on_seam is_space one two then 5 else 0)
  + (if on_seam is_linebreak one two then 4 else 0)
  + (if blank_line one two then 3 else 0).

(** The positions of an edit [x] between the EQUALs [a] and [b], from the
    given one rightwards: the edit moves over a character each time its
    first character is also the first of [b]. *)
Fixpoint slides (a x b : string_t) {struct b}
  : list (string_t * string_t * string_t) :=
  (a, x, b)
  :: match x, b with
     | c :: x', c' :: b' =>
         if Ascii.eqb c c' then slides (a ++ [c]) (x' ++ [c]) b' else []
     | _, _ => []
     end.

Definition seams_score (t : string_t * string_t * string_t) : nat :=
  let '(a, x, b) := t in boundary_score a x + boundary_score x b.

(** The position adopted: the given one unless a shifted one has a strictly
    higher total score; positions are tried from the leftmost on. *)
Definition best_shift (e1 x e2 : string_t) : string_t * string_t * string_t :=
  let cs := common_suffix e1 x in
  fold_left (fun best t => if seams_score best <? seams_score t then t else best)
    (slides (drop_back (length cs) e1) (cs ++ drop_back (length cs) x) (cs ++ e2))
    (e1, x, e2).

(** The EQUAL held back during boundary alignment, if any. *)
Definition emit (prev : option string_t) : Diffs :=
  match prev with
  | Some e => op EQUAL e
  | None => []
  end.

(** Boundary alignment.  [prev] is the text of the EQUAL just before the
    rest [diffs], not yet emitted because the next edit may move into it. *)
Fixpoint align_walk (prev : option string_t) (diffs : Diffs) : Diffs :=
  match diffs with
  | [] => emit prev
  | d :: tl =>
      match operation d with
      | EQUAL => emit prev ++ align_walk (Some (text d)) tl
      | _ =>
          match prev, tl with
          | Some e1, e2 :: rest =>
              if is_equal e2 then
                let '(e1', x', e2') := best_shift e1 (text d) (text e2) in
                op EQUAL e1' ++ mkDiff (operation d) x'
                :: align_walk (Some e2') rest
              else emit prev ++ d :: align_walk None tl
          | _, _ => emit prev ++ d :: align_walk None tl
          end
      end
  end.

Definition align_boundaries (diffs : Diffs) : Diffs := align_walk None diffs.

(** The fixed threshold of short-equality elimination. *)
Definition short_equality : nat := 4.

(** The largest edit of the run of edits at the head of [diffs] (up to the
    next EQUAL): the larger of the inserted and the deleted length. *)
Fixpoint run_size (diffs : Diffs) (ins del : nat) : nat :=
  match diffs with
  | [] => Nat.max ins del
  | d :: rest =>
      match operation d with
      | INSERT => run_size rest (ins + length (text d)) del
      | DELETE => run_size rest ins (del + length (text d))
      | EQUAL => Nat.max ins del
      end
  end.

(** Short-equality elimination.  [ins] and [del] are the inserted and
    deleted lengths since the last EQUAL that was kept.  An EQUAL shorter
    than the largest edit on either side and shorter than the threshold
    becomes a DELETE and an INSERT of its text. *)
Fixpoint eliminate_walk (diffs : Diffs) (ins del : nat) : Diffs :=
  match diffs with
  | [] => []
  | d :: rest =>
      match operation d with
      | INSERT => d :: eliminate_walk rest (ins + length (text d)) del
      | DELETE => d :: eliminate_walk rest ins (del + length (text d))
      | EQUAL =>
          let n := length (text d) in
          if (n <? Nat.max ins del) && (n <? run_size rest 0 0)
             && (n <? short_equality)
          then mkDiff DELETE (text d) :: mkDiff INSERT (text d)
               :: eliminate_walk rest (ins + n) (del + n)
          else d :: eliminate_walk rest 0 0
      end
  end.

Definition eliminate_short (diffs : Diffs) : Diffs := eliminate_walk diffs 0 0.

(** Modelled from the spec: the semantic cleanup of spec 4.6 (absent with
    diff_match_patch.h): boundary alignment, short-equality elimination,
    merge. *)
Definition cleanup_semantic (diffs : Diffs) : Diffs :=
  cleanup_merge (eliminate_short (align_boundaries diffs)).

(** *** The engine as the binding sees it *)

(** Size above which [checklines] switches to line mode. *)
Definition line_threshold : nat := 100.

Section Interface.
(** The line-mode path is not modelled; it is a parameter.  The binding never
    takes it. *)
Variable diff_lineMode : string_t -> string_t -> Diffs.

(** Modelled from the spec: [diff_main] (absent with diff_match_patch.h),
    the top-level diff of spec 4.1 up to and including the merge pass.  The
    semantic cleanup of step 5 is the separate [diff_cleanupSemantic], which
    the binding calls itself ("the source binding always invokes semantic
    cleanup").  "When [checklines is] true and inputs exceed a size threshold
    (about 100 characters)" the line mode is taken; "when false, diffing is
    character-level throughout". *)
Definition diff_main (a b : string_t) (checklines : bool) : Diffs :=
  if checklines && (line_threshold <? length a) && (line_threshold <? length b)
  then diff_lineMode a b
  else cleanup_merge (diff_raw a b).

End Interface.

(** *** Notions used in the proofs *)

(** A transformation keeps both texts. *)
Definition same_texts (d1 d2 : Diffs) : Prop :=
  diff_text1 d1 = diff_text1 d2 /\ diff_text2 d1 = diff_text2 d2.

Definition pending (prev : option string_t) : string_t :=
  match prev with Some e => e | None => [] end.

Definition good_pair (d e : Diff) : Prop :=
  operation d <> operation e
  /\ ~ (operation d = INSERT /\ operation e = DELETE).

Fixpoint chain (l : Diffs) : Prop :=
  match l with
  | d :: tl => match tl with
               | e :: _ => good_pair d e /\ chain tl
               | [] => True
               end
  | [] => True
  end.

(** Among the operations with text, no INSERT comes directly before a
    DELETE; [prev] is the kind of the last operation with text so far. *)
Fixpoint ordered (prev : option Operation) (l : Diffs) : Prop :=
  match l with
  | [] => True
  | d :: r =>
      match text d with
      | [] => ordered prev r
      | _ => ~ (prev = Some INSERT /\ operation d = DELETE)
             /\ ordered (Some (operation d)) r
      end
  end.

Fixpoint last_kind (prev : option Operation) (l : Diffs) : option Operation :=
  match l with
  | [] => prev
  | d :: r =>
      match text d with
      | [] => last_kind prev r
      | _ => last_kind (Some (operation d)) r
      end
  end.

(** The inputs of bisect have neither a common first nor a common last
    character. *)
Definition first_differ (a b : string_t) : Prop :=
  forall x y a' b', a = x :: a' -> b = y :: b' -> x <> y.

Definition last_differ (a b : string_t) : Prop :=
  forall x y a' b', a = a' ++ [x] -> b = b' ++ [y] -> x <> y.

(** The rows of the forward search: [rows a b (S d)] is the row of stage
    [d]. *)
Definition rows (a b : string_t) (k : nat) : list point :=
  Nat.iter k (next_row a b) [].

(** Every point of the row of stage [d] lies on its diagonal
    [-d + 2 i] and is at least [d] steps from the origin. *)
Fixpoint on_diags (d i : nat) (row : list point) : Prop :=
  match row with
  | [] => True
  | p :: tl =>
      (fst p + d = snd p + 2 * i /\ d <= fst p + snd p) /\ on_diags d (S i) tl
  end.

(** A split point that leaves both halves strictly smaller. *)
Definition proper (N M : nat) (pt : point) : Prop :=
  fst pt <= N /\ snd pt <= M /\ 0 < fst pt + snd pt < N + M.

(** The forward and the reverse test of stage [k], as [bisect_search] runs
    them. *)
Definition fwd_test (a b : string_t) (k : nat) : option point :=
  if Nat.odd (length a + length b)
  then find (overlap (length a) (length b) (rows (rev a) (rev b) k))
         (rows a b (S k))
  else None.

Definition rev_test (a b : string_t) (k : nat) : option point :=
  if Nat.even (length a + length b)
  then find (overlap (length a) (length b) (rows a b (S k)))
         (rows (rev a) (rev b) (S k))
  else None.

Definition sound (rec : string_t -> string_t -> option Diffs) : Prop :=
  forall x y ds, rec x y = Some ds -> diff_text1 ds = x /\ diff_text2 ds = y.

(** Sizes of the pieces. *)
Definition size (a b : string_t) : nat := length a + length b.

Definition total_below (rec : string_t -> string_t -> option Diffs) (n : nat)
  : Prop :=
  forall x y, size x y < n -> exists ds, rec x y = Some ds.

End Engine.

(** Modelled from the spec: the engine of diff_match_patch.h, which is
    absent.  [diff_main] is the top-level diff of spec 4.1 up to the merge
    pass: equal inputs, common affixes, shortcuts (4.2), half-match (4.3),
    bisect (4.4), merge (4.5), at character level; [diff_cleanupSemantic] is
    the semantic cleanup of spec 4.6.  The deadline is left out: the
    signature of spec section 6 defaults it to none, and the binding passes
    none.  Where the spec leaves a detail open the model says so at the
    definition.  The line mode is the parameter [diff_lineMode]. *)
Definition spec_engine (diff_lineMode : string_t -> string_t -> Diffs)
  : diff_match_patch := {|
  diff_main := Engine.diff_main diff_lineMode;
  diff_cleanupSemantic := Engine.cleanup_semantic
|}.

(** A host whose numbers are integers, printed in decimal. *)
Definition integer_numbers : Number := {|
  lua_Number := Z;
  number_of_int := fun z => z;
  number_tostring := fun z =>
    String.list_ascii_of_string (DecimalString.NilZero.string_of_int (Z.to_int z))
|}.

(** What the loop of [diff] leaves in the table, as a function: the final
    counter and the table after [diffs] have been stored from key [len]
    on. *)
Fixpoint fill_table {LN : Number} (diffs : Diffs) (len : Z) (t : table)
  : Z * table :=
  match diffs with
  | [] => (len, t)
  | d :: rest =>
      let t1 := table_set t len
                  (LNumber (number_of_int (operation_value (operation d)))) in
      let len1 := int_wrap (len + 1) in
      let t2 := table_set t1 len1 (LString (c_string (text d))) in
      fill_table rest (int_wrap (len1 + 1)) t2
  end.

(** The string [luaL_checkstring] obtains from an argument value. *)
Definition arg_string {LN : Number} (v : option value) : option string_t :=
  match v with
  | Some (LString s) => Some s
  | Some (LNumber n) => Some (number_tostring n)
  | _ => None
  end.

(** The keys [start, start+1, ...] of a sequence of [n] entries. *)
Fixpoint Zseq (start : Z) (n : nat) : list Z :=
  match n with
  | O => []
  | S n' => start :: Zseq (start + 1) n'
  end.

(** The table whose sequence part is [vs] and which has no other entry. *)
Definition table_of_list {LN : Number} (vs : list value) : table :=
  combine (Zseq 1 (length vs)) vs.

(** The edit script as [lua_pushstring] sees it: each text through
    [c_str()]. *)
Definition c_strings (diffs : Diffs) : Diffs :=
  map (fun d => mkDiff (operation d) (c_string (text d))) diffs.

(** An argument that is null or not provided: the slot holds nil, or the
    frame has no such slot. *)
Definition absent {LN : Number} (v : option value) : Prop :=
  v = None \/ v = Some LNil.

(** What the host observes of a call: the returned values, or the error. *)
Definition observation {LN : Number} (o : outcome Z) : list value + error :=
  match o with
  | Returns n L => inl (skipn (length (stack L) - Z.to_nat n) (stack L))
  | Raises e => inr e
  end.

(** The edit script [diff] computes with the modelled engine (diff.cxx:14-16
    over [spec_engine]). *)
Definition spec_diff (diff_lineMode : string_t -> string_t -> Diffs)
    (text1 text2 : string_t) : Diffs :=
  @diff_ops (spec_engine diff_lineMode) text1 text2.

(** A string literal as a [std::string]. *)
Definition str (s : String.string) : string_t := String.list_ascii_of_string s.

(** Sample inputs. *)
Definition no_lineMode (a b : string_t) : Diffs := [].
Definition sample_abc : string_t := ["a"; "b"; "c"]%char.
Definition sample_abd : string_t := ["a"; "b"; "d"]%char.

Definition sample_engine : diff_match_patch := spec_engine no_lineMode.
Definition sample_args : list (@value integer_numbers) :=
  [LString sample_abc; LString sample_abd].
Definition sample_ops : Diffs :=
  @diff_ops sample_engine (c_string sample_abc) (c_string sample_abd).

(** The scenarios of spec section 8 are stated with these. *)
Definition scenario (a b : string_t) : Diffs := spec_diff no_lineMode a b.
Definition equal_op (s : String.string) : Diff := mkDiff EQUAL (str s).
Definition delete_op (s : String.string) : Diff := mkDiff DELETE (str s).
Definition insert_op (s : String.string) : Diff := mkDiff INSERT (str s).

(* ================================================================== *)
(** * Properties of the binding *)
(* ================================================================== *)

Section BindingFacts.
Context {LN : Number} {dmp : diff_match_patch}.

Lemma c_string_nul_free s : nul_free s -> c_string s = s.
Proof.
  unfold nul_free. induction s as [|c s IH]; simpl; intros H; [reflexivity|].
  destruct (Ascii.eqb c NUL) eqn:E.
  - apply Ascii.eqb_eq in E. exfalso. apply H. now left.
  - f_equal. apply IH. intros Hin. apply H. now right.
Qed.

Lemma nul_freeb_spec s : nul_freeb s = true <-> nul_free s.
Proof.
  unfold nul_free. induction s as [|c s IH]; simpl.
  - split; [intros _ []|reflexivity].
  - rewrite andb_true_iff, negb_true_iff, IH. split.
    + intros [E H] [Hc|Hin]; [|now apply H].
      subst c. now rewrite Ascii.eqb_refl in E.
    + intros H. split.
      * destruct (Ascii.eqb c NUL) eqn:E; [|reflexivity].
        apply Ascii.eqb_eq in E. exfalso. apply H. now left.
      * intros Hin. apply H. now right.
Qed.

Lemma int_wrap_small z : - 2147483648 <= z <= INT_MAX -> int_wrap z = z.
Proof.
  unfold int_wrap, INT_MAX. intros H.
  rewrite Z.mod_small by lia. lia.
Qed.

(** *** Stack addressing *)

Lemma index2addr_top reg (st : list value) v :
  index2addr (mkState reg (st ++ [v])) (-1) = Some (length st).
Proof.
  unfold index2addr, lua_gettop. simpl stack.
  rewrite length_app. simpl length.
  replace (0 <? -1) with false by reflexivity.
  replace (-1 <? 0) with true by reflexivity. simpl.
  destruct (- Z.of_nat (length st + 1) <=? -1) eqn:E.
  - f_equal. lia.
  - apply Z.leb_gt in E. lia.
Qed.

Lemma index2addr_below_top reg (st : list value) u v :
  index2addr (mkState reg (st ++ [u; v])) (-2) = Some (length st).
Proof.
  unfold index2addr, lua_gettop. simpl stack.
  rewrite length_app. simpl length.
  replace (0 <? -2) with false by reflexivity.
  replace (-2 <? 0) with true by reflexivity. simpl.
  destruct (- Z.of_nat (length st + 2) <=? -2) eqn:E.
  - f_equal. lia.
  - apply Z.leb_gt in E. lia.
Qed.

Lemma index2addr_arg reg (st : list value) (n : nat) :
  (n < length st)%nat ->
  index2addr (mkState reg st) (Z.of_nat (S n)) = Some n.
Proof.
  intros H. unfold index2addr, lua_gettop. simpl stack.
  destruct (0 <? Z.of_nat (S n)) eqn:E1; [|apply Z.ltb_ge in E1; lia].
  destruct (Z.of_nat (S n) <=? Z.of_nat (length st)) eqn:E2;
    [|apply Z.leb_gt in E2; lia].
  f_equal. lia.
Qed.

Lemma index2addr_none reg (st : list value) (n : nat) :
  (length st <= n)%nat ->
  index2addr (mkState reg st) (Z.of_nat (S n)) = None.
Proof.
  intros H. unfold index2addr, lua_gettop. simpl stack.
  destruct (0 <? Z.of_nat (S n)) eqn:E1; [|apply Z.ltb_ge in E1; lia].
  destruct (Z.of_nat (S n) <=? Z.of_nat (length st)) eqn:E2;
    [apply Z.leb_le in E2; lia|reflexivity].
Qed.

Lemma list_set_app_here {A} (st : list A) (x y : A) (rest : list A) :
  list_set (st ++ x :: rest) (length st) y = st ++ y :: rest.
Proof. induction st as [|a st IH]; simpl; [reflexivity|now rewrite IH]. Qed.

Lemma nth_error_app_here {A} (st : list A) (x : A) (rest : list A) :
  nth_error (st ++ x :: rest) (length st) = Some x.
Proof. induction st as [|a st IH]; simpl; [reflexivity|exact IH]. Qed.

Lemma removelast_app2 {A} (st : list A) (x y : A) :
  removelast (st ++ [x; y]) = st ++ [x].
Proof.
  replace (st ++ [x; y]) with ((st ++ [x]) ++ [y]) by now rewrite <- app_assoc.
  apply removelast_last.
Qed.

(** [lua_rawseti(L, -2, n)] on a stack whose two top slots are the table
    and the value to store. *)
Lemma rawseti_run reg (st : list value) t (v : value) n :
  lua_rawseti (-2) n (mkState reg (st ++ [LTable t; v]))
  = Returns tt (mkState reg (st ++ [LTable (table_set t n v)])).
Proof.
  unfold lua_rawseti, stack_get.
  rewrite index2addr_below_top.
  replace (st ++ [LTable t; v]) with ((st ++ [LTable t]) ++ [v])
    by now rewrite <- app_assoc.
  rewrite index2addr_top. simpl stack.
  rewrite nth_error_app_here.
  rewrite <- app_assoc. simpl app.
  rewrite nth_error_app_here, list_set_app_here, removelast_app2.
  reflexivity.
Qed.

(** One [push v, lua_rawseti(L, -2, n)] pair followed by the rest [k] of the
    function. *)
Lemma push_rawseti {A} reg (st : list value) t (v : value) n (k : M A) :
  bind (push v) (fun _ => bind (lua_rawseti (-2) n) (fun _ => k))
    (mkState reg (st ++ [LTable t]))
  = k (mkState reg (st ++ [LTable (table_set t n v)])).
Proof.
  unfold bind at 1. unfold push. simpl registry. simpl stack.
  rewrite <- app_assoc. simpl app.
  unfold bind. now rewrite rawseti_run.
Qed.

(** The loop computes [fill_table] and touches nothing but the table. *)
Lemma diff_fill_run diffs : forall len reg (st : list value) t,
  diff_fill diffs len (mkState reg (st ++ [LTable t]))
  = Returns (fst (fill_table diffs len t))
      (mkState reg (st ++ [LTable (snd (fill_table diffs len t))])).
Proof.
  induction diffs as [|d rest IH]; intros len reg st t; simpl.
  - reflexivity.
  - unfold lua_pushnumber, lua_pushstring.
    rewrite push_rawseti, push_rawseti.
    apply IH.
Qed.

(** *** Argument checks *)

Lemma list_set_same {A} (l : list A) n x :
  nth_error l n = Some x -> list_set l n x = l.
Proof.
  revert n; induction l as [|a l IH]; intros [|n]; simpl; try discriminate.
  - now intros [= ->].
  - intros H. now rewrite IH.
Qed.

Lemma nth_error_list_set_other {A} (l : list A) i j x :
  i <> j -> nth_error (list_set l i x) j = nth_error l j.
Proof.
  revert i j; induction l as [|a l IH]; intros [|i] [|j] H; simpl;
    try reflexivity; try congruence.
  apply IH. congruence.
Qed.

Lemma list_set_comm {A} (l : list A) i j x y :
  i <> j -> list_set (list_set l i x) j y = list_set (list_set l j y) i x.
Proof.
  revert i j; induction l as [|a l IH]; intros [|i] [|j] H; simpl;
    try reflexivity; try congruence.
  f_equal. apply IH. congruence.
Qed.

Lemma length_list_set {A} (l : list A) i x : length (list_set l i x) = length l.
Proof.
  revert i; induction l as [|a l IH]; intros [|i]; simpl; try reflexivity.
  now rewrite IH.
Qed.

(** [luaL_checkstring] on argument [n+1] of a frame. *)
Lemma checkstring_run reg (args : list value) (n : nat) :
  luaL_checkstring (Z.of_nat (S n)) (mkState reg args)
  = match arg_string (nth_error args n) with
    | Some s => Returns s (mkState reg (list_set args n (LString s)))
    | None => Raises (BadArgument (Z.of_nat (S n)))
    end.
Proof.
  unfold luaL_checkstring.
  destruct (Nat.lt_ge_cases n (length args)) as [Hlt|Hge].
  - rewrite index2addr_arg by assumption. simpl stack.
    destruct (nth_error args n) as [v|] eqn:E; [|reflexivity].
    destruct v; simpl; try reflexivity.
    unfold stack_set. simpl. now rewrite (list_set_same _ _ E).
  - rewrite index2addr_none by assumption.
    apply nth_error_None in Hge. now rewrite Hge.
Qed.

(** With two arguments that are strings (or numbers), both checks pass in
    either order. *)
Lemma diff_args_run ord reg (args : list value) a b :
  arg_string (nth_error args 0) = Some a ->
  arg_string (nth_error args 1) = Some b ->
  diff_args ord (mkState reg args)
  = Returns (c_string a, c_string b)
      (mkState reg (list_set (list_set args 0 (LString a)) 1 (LString b))).
Proof.
  intros Ha Hb. destruct ord; unfold diff_args, bind.
  - change 1 with (Z.of_nat 1). rewrite checkstring_run, Ha.
    change 2 with (Z.of_nat 2). rewrite checkstring_run.
    rewrite nth_error_list_set_other by discriminate. now rewrite Hb.
  - change 2 with (Z.of_nat 2). rewrite checkstring_run, Hb.
    change 1 with (Z.of_nat 1). rewrite checkstring_run.
    rewrite nth_error_list_set_other by discriminate. rewrite Ha.
    unfold ret. now rewrite list_set_comm by discriminate.
Qed.

(** With an argument that is neither, the call raises the argument error
    for one of the offending arguments. *)
Lemma diff_args_raise ord reg (args : list value) :
  arg_string (nth_error args 0) = None \/ arg_string (nth_error args 1) = None ->
  exists n : nat, (n = 0 \/ n = 1)%nat /\
    arg_string (nth_error args n) = None /\
    diff_args ord (mkState reg args) = Raises (BadArgument (Z.of_nat (S n))).
Proof.
  intros H. destruct ord; unfold diff_args, bind.
  - change 1 with (Z.of_nat 1). rewrite checkstring_run.
    destruct (arg_string (nth_error args 0)) as [a|] eqn:Ha.
    + destruct H as [H|H]; [discriminate|].
      exists 1%nat. split; [now right|]. split; [exact H|].
      change 2 with (Z.of_nat 2). rewrite checkstring_run.
      rewrite nth_error_list_set_other by discriminate. now rewrite H.
    + exists 0%nat. split; [now left|]. now split.
  - change 2 with (Z.of_nat 2). rewrite checkstring_run.
    destruct (arg_string (nth_error args 1)) as [b|] eqn:Hb.
    + destruct H as [H|H]; [|discriminate].
      exists 0%nat. split; [now left|]. split; [exact H|].
      change 1 with (Z.of_nat 1). rewrite checkstring_run.
      rewrite nth_error_list_set_other by discriminate. now rewrite H.
    + exists 1%nat. split; [now right|]. now split.
Qed.

(** *** The whole function *)

Lemma diff_run ord reg (args : list value) a b :
  arg_string (nth_error args 0) = Some a ->
  arg_string (nth_error args 1) = Some b ->
  diff ord (mkState reg args)
  = Returns 1
      (mkState reg
         (list_set (list_set args 0 (LString a)) 1 (LString b)
          ++ [LTable (snd (fill_table (diff_ops (c_string a) (c_string b)) 1 []))])).
Proof.
  intros Ha Hb. unfold diff. unfold bind at 1.
  rewrite (diff_args_run ord reg args Ha Hb). simpl fst. simpl snd.
  unfold bind at 1. unfold lua_createtable, push. simpl registry. simpl stack.
  unfold bind. rewrite diff_fill_run. reflexivity.
Qed.

Lemma diff_raise ord reg (args : list value) :
  arg_string (nth_error args 0) = None \/ arg_string (nth_error args 1) = None ->
  exists n : nat, (n = 0 \/ n = 1)%nat /\
    arg_string (nth_error args n) = None /\
    diff ord (mkState reg args) = Raises (BadArgument (Z.of_nat (S n))).
Proof.
  intros H. destruct (diff_args_raise ord reg args H) as (n & Hn & Hbad & E).
  exists n. split; [exact Hn|]. split; [exact Hbad|].
  unfold diff. unfold bind at 1. now rewrite E.
Qed.

Lemma results_top reg (st : list value) v :
  results (Returns 1 (mkState reg (st ++ [v]))) = Some [v].
Proof.
  unfold results. simpl stack. rewrite length_app. simpl length.
  replace (length st + 1 - Z.to_nat 1)%nat with (length st) by lia.
  rewrite skipn_app, skipn_all, Nat.sub_diag. reflexivity.
Qed.

(** *** The table *)

Lemma table_remove_fresh (t : table) n :
  Forall (fun kv => fst kv < n) t -> table_remove t n = t.
Proof.
  induction 1 as [|[k v] t Hk _ IH]; simpl; [reflexivity|].
  simpl in Hk. destruct (k =? n) eqn:E; [apply Z.eqb_eq in E; lia|].
  now rewrite IH.
Qed.

Lemma table_set_fresh (t : table) n (v : value) :
  Forall (fun kv => fst kv < n) t -> v <> LNil ->
  table_set t n v = t ++ [(n, v)].
Proof.
  intros Ht Hv. unfold table_set. rewrite (table_remove_fresh Ht).
  destruct v; try reflexivity. congruence.
Qed.

Lemma length_flat (diffs : Diffs) :
  length (flat diffs) = (2 * length diffs)%nat.
Proof. induction diffs as [|d r IH]; simpl; [reflexivity|]. rewrite IH. lia. Qed.

Lemma flat_not_nil (diffs : Diffs) : Forall (fun v => v <> LNil) (flat diffs).
Proof.
  induction diffs as [|d r IH]; simpl; [constructor|].
  constructor; [discriminate|]. constructor; [discriminate|exact IH].
Qed.

(** While the counter stays inside [int], the loop appends the flat
    encoding under consecutive keys. *)
Lemma fill_table_seq diffs : forall len (t : table),
  1 <= len -> len + 2 * Z.of_nat (length diffs) <= INT_MAX ->
  Forall (fun kv => fst kv < len) t ->
  fill_table diffs len t
  = (len + 2 * Z.of_nat (length diffs),
     t ++ combine (Zseq len (2 * length diffs)) (flat (c_strings diffs))).
Proof.
  induction diffs as [|d r IH]; intros len t Hlen Hmax Ht.
  - simpl. rewrite app_nil_r. f_equal. lia.
  - cbn [fill_table].
    change (length (d :: r)) with (S (length r)) in *.
    assert (E1 : int_wrap (len + 1) = len + 1)
      by (apply int_wrap_small; unfold INT_MAX in *; lia).
    rewrite E1.
    assert (E2 : int_wrap (len + 1 + 1) = len + 2)
      by (rewrite int_wrap_small; unfold INT_MAX in *; lia).
    rewrite E2.
    rewrite (table_set_fresh Ht) by discriminate.
    rewrite table_set_fresh; [|
      apply Forall_app; split;
        [eapply Forall_impl; [|exact Ht]; simpl; intros; lia
        |constructor; [simpl; lia|constructor]]
      |discriminate].
    rewrite IH; [| lia | lia |].
    + f_equal; [lia|].
      replace (2 * S (length r))%nat with (S (S (2 * length r))) by lia.
      cbn [Zseq c_strings map flat flat_map combine app operation text].
      rewrite <- !app_assoc. cbn [app].
      replace (len + 1 + 1) with (len + 2) by lia. reflexivity.
    + rewrite !Forall_app. repeat split.
      * eapply Forall_impl; [|exact Ht]. simpl; intros; lia.
      * constructor; [simpl; lia|constructor].
      * constructor; [simpl; lia|constructor].
Qed.

Lemma table_get_combine (vs : list value) : forall s (i : nat),
  table_get (combine (Zseq s (length vs)) vs) (s + Z.of_nat i) = nth i vs LNil.
Proof.
  induction vs as [|v vs IH]; intros s i; simpl.
  - now destruct i.
  - destruct i as [|i].
    + replace (s + Z.of_nat 0) with s by lia. now rewrite Z.eqb_refl.
    + destruct (s =? s + Z.of_nat (S i)) eqn:E; [apply Z.eqb_eq in E; lia|].
      replace (s + Z.of_nat (S i)) with ((s + 1) + Z.of_nat i) by lia.
      apply IH.
Qed.

Lemma table_get_combine_below (vs : list value) : forall s n,
  n < s -> table_get (combine (Zseq s (length vs)) vs) n = LNil.
Proof.
  induction vs as [|v vs IH]; intros s n H; simpl; [reflexivity|].
  destruct (s =? n) eqn:E; [apply Z.eqb_eq in E; lia|].
  apply IH. lia.
Qed.

Lemma table_seq_from_list (vs : list value) :
  Forall (fun v => v <> LNil) vs ->
  forall fuel (i : nat),
    table_seq_from fuel (table_of_list vs) (1 + Z.of_nat i)
    = firstn fuel (skipn i vs).
Proof.
  intros Hvs. induction fuel as [|fuel IH]; intros i; [reflexivity|].
  cbn [table_seq_from]. unfold table_of_list at 1.
  rewrite table_get_combine.
  destruct (Nat.lt_ge_cases i (length vs)) as [Hlt|Hge].
  - destruct (nth_error vs i) as [v|] eqn:E;
      [|apply nth_error_None in E; lia].
    rewrite (nth_error_nth _ _ _ E).
    assert (Hv : v <> LNil).
    { rewrite Forall_forall in Hvs. apply Hvs. eapply nth_error_In; eauto. }
    fold (table_of_list vs).
    replace (1 + Z.of_nat i + 1) with (1 + Z.of_nat (S i)) by lia.
    rewrite IH.
    assert (Es : skipn i vs = v :: skipn (S i) vs).
    { clear -E. revert i E. induction vs as [|a vs IHv]; intros [|i] E;
        simpl in *; try discriminate.
      - now injection E as ->.
      - now apply IHv. }
    rewrite Es. cbn [firstn]. destruct v; [congruence|reflexivity..].
  - rewrite nth_overflow by assumption.
    now rewrite skipn_all2 by assumption.
Qed.

(** The sequence part of [table_of_list vs] is [vs]. *)
Lemma table_seq_of_list (vs : list value) :
  Forall (fun v => v <> LNil) vs -> table_seq (table_of_list vs) = vs.
Proof.
  intros H. unfold table_seq.
  pose proof (table_seq_from_list H (length (table_of_list vs)) 0) as E.
  change (1 + Z.of_nat 0) with 1 in E. rewrite E. simpl skipn.
  unfold table_of_list. rewrite length_combine.
  assert (Hz : forall n s, length (Zseq s n) = n)
    by (induction n; intros; simpl; [reflexivity|now rewrite IHn]).
  rewrite Hz, Nat.min_id. apply firstn_all.
Qed.

(** Keys of [table_of_list vs]: exactly [1 .. length vs]. *)
Lemma table_of_list_keys (vs : list value) n :
  Forall (fun v => v <> LNil) vs ->
  table_get (table_of_list vs) n <> LNil <-> 1 <= n <= Z.of_nat (length vs).
Proof.
  intros Hvs. unfold table_of_list.
  destruct (Z.lt_ge_cases n 1) as [Hlt|Hge].
  - rewrite table_get_combine_below by assumption. split; [congruence|lia].
  - replace n with (1 + Z.of_nat (Z.to_nat (n - 1))) at 1 by lia.
    rewrite table_get_combine.
    destruct (Nat.lt_ge_cases (Z.to_nat (n - 1)) (length vs)) as [H|H].
    + split; [lia|]. intros _.
      rewrite Forall_forall in Hvs. apply Hvs. now apply nth_In.
    + rewrite nth_overflow by assumption. split; [congruence|lia].
Qed.

Lemma c_strings_nul_free (diffs : Diffs) :
  Forall (fun d => nul_free (text d)) diffs -> c_strings diffs = diffs.
Proof.
  induction 1 as [|d r Hd _ IH]; simpl; [reflexivity|].
  rewrite IH, (c_string_nul_free Hd). now destruct d.
Qed.

(** The table [diff] builds when the counter stays inside [int]. *)
Lemma fill_table_flat (diffs : Diffs) :
  2 * Z.of_nat (length diffs) <= INT_MAX ->
  snd (fill_table diffs 1 []) = table_of_list (flat (c_strings diffs)).
Proof.
  intros H. rewrite fill_table_seq.
  - simpl. unfold table_of_list. rewrite length_flat.
    unfold c_strings. now rewrite length_map.
  - lia.
  - unfold INT_MAX in *. lia.
  - constructor.
Qed.

End BindingFacts.

(* ================================================================== *)
(** * Properties of the engine model *)
(* ================================================================== *)

Unset Implicit Arguments.

Module EngineFacts.
Import Engine.
Local Open Scope nat_scope.

(** ** Strings *)

Lemma string_eqb_eq a b : string_eqb a b = true <-> a = b.
Proof.
  revert b; induction a as [|x a IH]; intros [|y b]; simpl;
    try (split; [discriminate|discriminate]); [tauto|].
  rewrite andb_true_iff, Ascii.eqb_eq, IH. split.
  - now intros [-> ->].
  - now intros [= -> ->].
Qed.

Lemma string_eqb_refl a : string_eqb a a = true.
Proof. now apply string_eqb_eq. Qed.

Lemma common_prefix_split_l a b :
  common_prefix a b ++ drop_front (length (common_prefix a b)) a = a.
Proof.
  unfold drop_front. revert b; induction a as [|x a IH]; intros [|y b]; simpl;
    try reflexivity.
  destruct (Ascii.eqb x y); simpl; [now rewrite IH|reflexivity].
Qed.

Lemma common_prefix_split_r a b :
  common_prefix a b ++ drop_front (length (common_prefix a b)) b = b.
Proof.
  unfold drop_front. revert b; induction a as [|x a IH]; intros [|y b]; simpl;
    try reflexivity.
  destruct (Ascii.eqb x y) eqn:E; simpl; [|reflexivity].
  apply Ascii.eqb_eq in E. subst y. now rewrite IH.
Qed.

Lemma drop_back_rev n (s : string_t) :
  drop_back n s = rev (skipn n (rev s)).
Proof. unfold drop_back. now rewrite skipn_rev, rev_involutive. Qed.

Lemma common_suffix_length a b :
  length (common_suffix a b) = length (common_prefix (rev a) (rev b)).
Proof. unfold common_suffix. apply length_rev. Qed.

Lemma common_suffix_split_l a b :
  drop_back (length (common_suffix a b)) a ++ common_suffix a b = a.
Proof.
  rewrite drop_back_rev, common_suffix_length. unfold common_suffix.
  rewrite <- rev_app_distr.
  pose proof (common_prefix_split_l (rev a) (rev b)) as H.
  unfold drop_front in H. rewrite H. apply rev_involutive.
Qed.

Lemma common_suffix_split_r a b :
  drop_back (length (common_suffix a b)) b ++ common_suffix a b = b.
Proof.
  rewrite drop_back_rev, common_suffix_length. unfold common_suffix.
  rewrite <- rev_app_distr.
  pose proof (common_prefix_split_r (rev a) (rev b)) as H.
  unfold drop_front in H. rewrite H. apply rev_involutive.
Qed.

(** The common prefix is maximal: what follows it differs at once. *)
Lemma common_prefix_maximal a b x y ra rb :
  drop_front (length (common_prefix a b)) a = x :: ra ->
  drop_front (length (common_prefix a b)) b = y :: rb ->
  x <> y.
Proof.
  unfold drop_front. revert b; induction a as [|c a IH]; intros [|c' b]; simpl;
    try discriminate.
  destruct (Ascii.eqb c c') eqn:E; simpl.
  - apply IH.
  - intros [= -> _] [= -> _]. intros ->. now rewrite Ascii.eqb_refl in E.
Qed.

Lemma common_prefix_nil_r a : common_prefix a [] = [].
Proof. now destruct a. Qed.

Lemma starts_with_split p s :
  starts_with p s = true -> s = p ++ skipn (length p) s.
Proof.
  revert s; induction p as [|x p IH]; intros [|y s]; simpl; try discriminate;
    try reflexivity.
  rewrite andb_true_iff, Ascii.eqb_eq. intros [-> H]. f_equal. now apply IH.
Qed.

Lemma ends_with_split x s :
  ends_with x s = true -> s = drop_back (length x) s ++ x.
Proof.
  unfold ends_with. intros H. apply starts_with_split in H.
  rewrite drop_back_rev. rewrite length_rev in H.
  rewrite <- (rev_involutive x) at 2. rewrite <- rev_app_distr, <- H.
  now rewrite rev_involutive.
Qed.

Lemma find_sub_split needle hay i :
  find_sub needle hay = Some i ->
  hay = firstn i hay ++ needle ++ skipn (i + length needle) hay.
Proof.
  revert i; induction hay as [|c hay IH]; intros i; simpl.
  - destruct (starts_with needle []) eqn:E; [|discriminate].
    intros [= <-]. simpl. now apply starts_with_split in E.
  - destruct (starts_with needle (c :: hay)) eqn:E.
    + intros [= <-]. simpl. now apply starts_with_split in E.
    + destruct (find_sub needle hay) as [j|]; simpl; [|discriminate].
      intros [= <-]. simpl. f_equal. now apply IH.
Qed.

(** ** The two texts of an edit script *)

Lemma diff_text1_app l1 l2 : diff_text1 (l1 ++ l2) = diff_text1 l1 ++ diff_text1 l2.
Proof. apply flat_map_app. Qed.

Lemma diff_text2_app l1 l2 : diff_text2 (l1 ++ l2) = diff_text2 l1 ++ diff_text2 l2.
Proof. apply flat_map_app. Qed.

Lemma diff_text1_cons d l :
  diff_text1 (d :: l)
  = match operation d with INSERT => [] | _ => text d end ++ diff_text1 l.
Proof. reflexivity. Qed.

Lemma diff_text2_cons d l :
  diff_text2 (d :: l)
  = match operation d with DELETE => [] | _ => text d end ++ diff_text2 l.
Proof. reflexivity. Qed.

Lemma diff_text1_op o s :
  diff_text1 (op o s) = match o with INSERT => [] | _ => s end.
Proof. destruct s, o; simpl; try reflexivity; now rewrite app_nil_r. Qed.

Lemma diff_text2_op o s :
  diff_text2 (op o s) = match o with DELETE => [] | _ => s end.
Proof. destruct s, o; simpl; try reflexivity; now rewrite app_nil_r. Qed.

(** ** Merge keeps the texts *)

Lemma flush_texts del ins :
  diff_text1 (flush del ins) = del /\ diff_text2 (flush del ins) = ins.
Proof.
  unfold flush, diff_text1, diff_text2. simpl. rewrite !app_nil_r.
  set (p := common_prefix del ins).
  set (del1 := drop_front (length p) del).
  set (ins1 := drop_front (length p) ins).
  split.
  - rewrite (common_suffix_split_l del1 ins1). apply common_prefix_split_l.
  - rewrite (common_suffix_split_r del1 ins1). apply common_prefix_split_r.
Qed.

Lemma merge_walk_texts diffs : forall del ins,
  diff_text1 (merge_walk diffs del ins) = del ++ diff_text1 diffs
  /\ diff_text2 (merge_walk diffs del ins) = ins ++ diff_text2 diffs.
Proof.
  induction diffs as [|d rest IH]; intros del ins; cbn [merge_walk].
  - rewrite !app_nil_r. apply flush_texts.
  - rewrite diff_text1_cons, diff_text2_cons.
    destruct (operation d) eqn:Eo.
    + destruct (IH (del ++ text d) ins) as [-> ->].
      now rewrite <- app_assoc.
    + destruct (IH del (ins ++ text d)) as [-> ->].
      now rewrite <- app_assoc.
    + destruct (text d) as [|c t] eqn:Et.
      * apply IH.
      * rewrite diff_text1_app, diff_text2_app.
        destruct (flush_texts del ins) as [-> ->].
        rewrite diff_text1_cons, diff_text2_cons, Eo, Et.
        destruct (IH [] []) as [-> ->]. now split.
Qed.

Lemma coalesce_texts diffs : same_texts (coalesce diffs) diffs.
Proof.
  unfold same_texts.
  induction diffs as [|d rest [IH1 IH2]]; [now split|].
  simpl coalesce. rewrite diff_text1_cons, diff_text2_cons, <- IH1, <- IH2.
  destruct (text d) as [|c t] eqn:Et.
  - now destruct (operation d).
  - destruct (coalesce rest) as [|e r].
    + rewrite diff_text1_cons, diff_text2_cons, Et. now split.
    + destruct (Operation_eqb (operation d) (operation e)) eqn:E.
      * rewrite !diff_text1_cons, !diff_text2_cons. simpl operation. simpl text.
        destruct (operation d), (operation e); try discriminate;
          rewrite ?app_assoc; now split.
      * rewrite !diff_text1_cons, !diff_text2_cons, Et. now split.
Qed.

Lemma normalize_texts diffs : same_texts (normalize diffs) diffs.
Proof.
  unfold normalize. destruct (coalesce_texts (merge_walk diffs [] [])) as [H1 H2].
  destruct (merge_walk_texts diffs [] []) as [W1 W2]. simpl in W1, W2.
  split; congruence.
Qed.

Lemma shift_once_texts diffs : forall diffs',
  shift_once diffs = Some diffs' -> same_texts diffs' diffs.
Proof.
  unfold same_texts.
  induction diffs as [|e1 tl IH]; intros diffs'; [discriminate|].
  cbn [shift_once].
  assert (Hrec : option_map (cons e1) (shift_once tl) = Some diffs' ->
                 diff_text1 diffs' = diff_text1 (e1 :: tl)
                 /\ diff_text2 diffs' = diff_text2 (e1 :: tl)).
  { destruct (shift_once tl) as [tl'|]; [|discriminate].
    intros [= <-]. destruct (IH tl' eq_refl) as [H1 H2].
    rewrite !diff_text1_cons, !diff_text2_cons. now rewrite H1, H2. }
  destruct tl as [|x [|e2 rest]]; try discriminate.
  destruct (is_equal e1 && negb (is_equal x) && is_equal e2) eqn:Ec;
    [|exact Hrec].
  apply andb_prop in Ec. destruct Ec as [Ec E2]. apply andb_prop in Ec.
  destruct Ec as [E1 Ex]. unfold is_equal in *.
  destruct (operation e1) eqn:O1; try discriminate.
  destruct (operation e2) eqn:O2; try discriminate.
  destruct (ends_with (text e1) (text x)) eqn:Ee.
  - intros [= <-]. apply ends_with_split in Ee.
    rewrite !diff_text1_cons, !diff_text2_cons, O1, O2. simpl operation. simpl text.
    destruct (operation x); try discriminate; split;
      rewrite ?app_nil_l, <- ?app_assoc; try reflexivity.
    + rewrite Ee at 2. now rewrite <- !app_assoc.
    + rewrite Ee at 2. now rewrite <- !app_assoc.
  - destruct (starts_with (text e2) (text x)) eqn:Es; [|exact Hrec].
    intros [= <-]. apply starts_with_split in Es. unfold drop_front.
    rewrite !diff_text1_cons, !diff_text2_cons, O1, O2. simpl operation. simpl text.
    destruct (operation x); try discriminate; split;
      rewrite ?app_nil_l, <- ?app_assoc; try reflexivity.
    + rewrite Es at 2. now rewrite <- !app_assoc.
    + rewrite Es at 2. now rewrite <- !app_assoc.
Qed.

Lemma merge_iter_texts fuel : forall diffs, same_texts (merge_iter fuel diffs) diffs.
Proof.
  induction fuel as [|fuel IH]; intros diffs; cbn [merge_iter].
  - apply normalize_texts.
  - destruct (shift_once (normalize diffs)) as [d2|] eqn:E.
    + destruct (IH d2) as [H1 H2].
      destruct (shift_once_texts _ _ E) as [S1 S2].
      destruct (normalize_texts diffs) as [N1 N2].
      split; congruence.
    + apply normalize_texts.
Qed.

Lemma cleanup_merge_texts diffs : same_texts (cleanup_merge diffs) diffs.
Proof. apply merge_iter_texts. Qed.

(** ** Semantic cleanup keeps the texts *)

Lemma slides_texts b : forall a x t,
  In t (slides a x b) ->
  let '(a', x', b') := t in
  a' ++ x' ++ b' = a ++ x ++ b /\ a' ++ b' = a ++ b.
Proof.
  induction b as [|c' b IH]; intros a x t; cbn [slides].
  - destruct x; (intros [<-|[]]; now split).
  - intros [<-|Hin]; [now split|].
    destruct x as [|c x]; [destruct Hin|].
    destruct (Ascii.eqb c c') eqn:E; [|destruct Hin].
    apply Ascii.eqb_eq in E. subst c'.
    specialize (IH _ _ _ Hin). destruct t as [[a' x'] b'].
    destruct IH as [H1 H2]. rewrite H1, H2, <- !app_assoc. now split.
Qed.

Lemma best_shift_texts e1 x e2 :
  let '(a', x', b') := best_shift e1 x e2 in
  a' ++ x' ++ b' = e1 ++ x ++ e2 /\ a' ++ b' = e1 ++ e2.
Proof.
  unfold best_shift.
  set (cs := common_suffix e1 x).
  set (P := fun t : string_t * string_t * string_t =>
              let '(a', x', b') := t in
              a' ++ x' ++ b' = e1 ++ x ++ e2 /\ a' ++ b' = e1 ++ e2).
  assert (Hfold : forall l init, P init -> Forall P l ->
            P (fold_left (fun best t => if seams_score best <? seams_score t
                                        then t else best) l init)).
  { induction l as [|t l IHl]; intros init Hi Hl; [exact Hi|].
    inversion Hl; subst. cbn [fold_left]. apply IHl; [|assumption].
    now destruct (seams_score init <? seams_score t). }
  apply Hfold; [now split|].
  apply Forall_forall. intros t Hin. apply slides_texts in Hin.
  destruct t as [[a' x'] b']. destruct Hin as [H1 H2]. unfold P.
  rewrite H1, H2.
  pose proof (common_suffix_split_l e1 x) as He. fold cs in He.
  pose proof (common_suffix_split_r e1 x) as Hx. fold cs in Hx.
  split.
  - rewrite <- He at 2. rewrite <- Hx at 2. now rewrite <- !app_assoc.
  - rewrite <- He at 2. now rewrite <- !app_assoc.
Qed.

Lemma align_walk_texts n : forall diffs prev,
  length diffs <= n ->
  diff_text1 (align_walk prev diffs) = pending prev ++ diff_text1 diffs
  /\ diff_text2 (align_walk prev diffs) = pending prev ++ diff_text2 diffs.
Proof.
  induction n as [|n IH]; intros diffs prev Hn.
  - destruct diffs; [|simpl in Hn; lia]. simpl.
    destruct prev; simpl; rewrite ?diff_text1_op, ?diff_text2_op, ?app_nil_r;
      now split.
  - assert (Hemit : forall pv,
              diff_text1 (emit pv) = pending pv
              /\ diff_text2 (emit pv) = pending pv).
    { intros [e|]; simpl; rewrite ?diff_text1_op, ?diff_text2_op; now split. }
    destruct diffs as [|d tl]; cbn [align_walk].
    + destruct (Hemit prev) as [-> ->]. now rewrite !app_nil_r.
    + simpl in Hn.
      assert (Hplain :
        diff_text1 (emit prev ++ d :: align_walk None tl)
        = pending prev ++ diff_text1 (d :: tl)
        /\ diff_text2 (emit prev ++ d :: align_walk None tl)
           = pending prev ++ diff_text2 (d :: tl)).
      { rewrite diff_text1_app, diff_text2_app.
        destruct (Hemit prev) as [-> ->].
        rewrite !diff_text1_cons, !diff_text2_cons.
        destruct (IH tl None ltac:(lia)) as [-> ->]. now split. }
      destruct (operation d) eqn:Eo.
      * (* DELETE *)
        destruct prev as [e1|]; [|exact Hplain].
        destruct tl as [|e2 rest]; [exact Hplain|].
        destruct (is_equal e2) eqn:E2; [|exact Hplain].
        pose proof (best_shift_texts e1 (text d) (text e2)) as Hb.
        destruct (best_shift e1 (text d) (text e2)) as [[e1' x'] e2'].
        destruct Hb as [H1 H2].
        rewrite diff_text1_app, diff_text2_app, diff_text1_op, diff_text2_op.
        rewrite !diff_text1_cons, !diff_text2_cons. simpl operation. simpl text.
        simpl in Hn. destruct (IH rest (Some e2') ltac:(lia)) as [-> ->].
        unfold is_equal in E2. destruct (operation e2); try discriminate.
        rewrite Eo. simpl pending. simpl app at 1.
        split.
        -- rewrite !app_assoc. f_equal. rewrite <- !app_assoc. exact H1.
        -- rewrite !app_assoc, !app_nil_r. f_equal. exact H2.
      * (* INSERT *)
        destruct prev as [e1|]; [|exact Hplain].
        destruct tl as [|e2 rest]; [exact Hplain|].
        destruct (is_equal e2) eqn:E2; [|exact Hplain].
        pose proof (best_shift_texts e1 (text d) (text e2)) as Hb.
        destruct (best_shift e1 (text d) (text e2)) as [[e1' x'] e2'].
        destruct Hb as [H1 H2].
        rewrite diff_text1_app, diff_text2_app, diff_text1_op, diff_text2_op.
        rewrite !diff_text1_cons, !diff_text2_cons. simpl operation. simpl text.
        simpl in Hn. destruct (IH rest (Some e2') ltac:(lia)) as [-> ->].
        unfold is_equal in E2. destruct (operation e2); try discriminate.
        rewrite Eo. simpl pending. simpl app at 1.
        split.
        -- rewrite !app_assoc, !app_nil_r. f_equal. exact H2.
        -- rewrite !app_assoc. f_equal. rewrite <- !app_assoc. exact H1.
      * (* EQUAL *)
        rewrite diff_text1_app, diff_text2_app.
        destruct (Hemit prev) as [-> ->].
        rewrite diff_text1_cons, diff_text2_cons, Eo.
        destruct (IH tl (Some (text d)) ltac:(lia)) as [-> ->]. now split.
Qed.

Lemma align_boundaries_texts diffs : same_texts (align_boundaries diffs) diffs.
Proof. exact (@align_walk_texts (length diffs) diffs None (le_n _)). Qed.

Lemma eliminate_walk_texts diffs : forall ins del,
  same_texts (eliminate_walk diffs ins del) diffs.
Proof.
  unfold same_texts.
  induction diffs as [|d rest IH]; intros ins del; cbn [eliminate_walk];
    [now split|].
  destruct (operation d) eqn:Eo.
  - destruct (IH ins (del + length (text d))) as [H1 H2].
    rewrite !diff_text1_cons, !diff_text2_cons, H1, H2. now split.
  - destruct (IH (ins + length (text d)) del) as [H1 H2].
    rewrite !diff_text1_cons, !diff_text2_cons, H1, H2. now split.
  - match goal with |- context [if ?c then _ else _] => destruct c end.
    + destruct (IH (ins + length (text d)) (del + length (text d))) as [H1 H2].
      rewrite !diff_text1_cons, !diff_text2_cons, H1, H2, Eo. simpl.
      now rewrite ?app_nil_r.
    + destruct (IH 0 0) as [H1 H2].
      rewrite !diff_text1_cons, !diff_text2_cons, H1, H2. now split.
Qed.

Lemma cleanup_semantic_texts diffs : same_texts (cleanup_semantic diffs) diffs.
Proof.
  unfold cleanup_semantic.
  destruct (cleanup_merge_texts (eliminate_short (align_boundaries diffs)))
    as [M1 M2].
  destruct (eliminate_walk_texts (align_boundaries diffs) 0 0) as [E1 E2].
  destruct (align_boundaries_texts diffs) as [A1 A2].
  unfold eliminate_short in *. split; congruence.
Qed.

(** ** Merge output is canonical *)

Lemma chain_pair l1 : forall d e l2, chain (l1 ++ d :: e :: l2) -> good_pair d e.
Proof.
  induction l1 as [|x l1 IH]; intros d e l2 Hch; cbn [chain app] in Hch.
  - exact (proj1 Hch).
  - apply (IH d e l2). destruct (l1 ++ d :: e :: l2); [exact I|exact (proj2 Hch)].
Qed.

Lemma chain_canonical l :
  Forall (fun d => text d <> []) l -> chain l -> canonical l.
Proof.
  intros Hne Hch. split.
  - now apply Forall_forall.
  - intros l1 d e l2 ->. exact (chain_pair _ _ _ _ Hch).
Qed.

Lemma ordered_app l1 : forall prev l2,
  ordered prev l1 -> ordered (last_kind prev l1) l2 -> ordered prev (l1 ++ l2).
Proof.
  induction l1 as [|d l1 IH]; intros prev l2 H1 H2; simpl in *; [exact H2|].
  destruct (text d); [now apply IH|].
  destruct H1 as [Hd H1]. split; [exact Hd|now apply IH].
Qed.

Lemma Operation_eqb_eq o1 o2 : Operation_eqb o1 o2 = true <-> o1 = o2.
Proof. destruct o1, o2; simpl; split; congruence. Qed.

Lemma coalesce_chain l : forall prev,
  ordered prev l ->
  Forall (fun d => text d <> []) (coalesce l)
  /\ chain (coalesce l)
  /\ match coalesce l with
     | e :: _ => ~ (prev = Some INSERT /\ operation e = DELETE)
     | [] => True
     end.
Proof.
  induction l as [|d rest IH]; intros prev Hord; cbn [coalesce].
  - repeat split. constructor.
  - cbn [ordered] in Hord.
    destruct (text d) as [|c t] eqn:Et; [now apply IH|].
    destruct Hord as [Hd Hord].
    destruct (IH _ Hord) as (Hne & Hch & Hhd).
    assert (Hdne : text d <> []) by (rewrite Et; discriminate).
    destruct (coalesce rest) as [|e r].
    + repeat split; [now constructor|exact Hd].
    + destruct (Operation_eqb (operation d) (operation e)) eqn:E.
      * apply Operation_eqb_eq in E. inversion Hne; subst.
        repeat split.
        -- constructor; [|assumption]. simpl. rewrite ?Et. discriminate.
        -- cbn [chain] in *. destruct r as [|f r']; [exact I|].
           destruct Hch as [[G1 G2] Hch]. split; [|exact Hch].
           split; simpl; rewrite E; assumption.
        -- exact Hd.
      * assert (operation d <> operation e).
        { intros Heq. apply Operation_eqb_eq in Heq. congruence. }
        repeat split.
        -- now constructor.
        -- assumption.
        -- intros [Hi Hdel]. apply Hhd. split; [congruence|assumption].
        -- exact Hch.
        -- exact Hd.
Qed.

Lemma flush_ordered del ins prev :
  prev <> Some INSERT ->
  ordered prev (flush del ins)
  /\ forall d, text d <> [] -> operation d = EQUAL ->
               ~ (last_kind prev (flush del ins) = Some INSERT
                  /\ operation d = DELETE).
Proof.
  intros Hp. split.
  - unfold flush. cbn [ordered text operation].
    destruct (common_prefix del ins);
      destruct (drop_back _ (drop_front _ del));
      destruct (drop_back _ (drop_front _ ins));
      destruct (common_suffix _ _); cbn [ordered text operation];
      repeat split; try (intros [? ?]; congruence).
  - intros d _ Hd [_ Hdel]. congruence.
Qed.

Lemma merge_walk_ordered diffs : forall del ins prev,
  prev <> Some INSERT -> ordered prev (merge_walk diffs del ins).
Proof.
  induction diffs as [|d rest IH]; intros del ins prev Hp; cbn [merge_walk].
  - now apply flush_ordered.
  - destruct (operation d) eqn:Eo; try now apply IH.
    destruct (text d) as [|c t] eqn:Et; [now apply IH|].
    apply ordered_app; [now apply flush_ordered|].
    cbn [ordered]. rewrite Et. split.
    + intros [_ Hdel]. congruence.
    + rewrite Eo. apply IH. discriminate.
Qed.

Lemma normalize_canonical diffs : canonical (normalize diffs).
Proof.
  unfold normalize.
  destruct (@coalesce_chain (merge_walk diffs [] []) None) as (Hne & Hch & _).
  - apply merge_walk_ordered. discriminate.
  - now apply chain_canonical.
Qed.

Lemma merge_iter_canonical fuel : forall diffs, canonical (merge_iter fuel diffs).
Proof.
  induction fuel as [|fuel IH]; intros diffs; cbn [merge_iter].
  - apply normalize_canonical.
  - destruct (shift_once (normalize diffs)); [apply IH|apply normalize_canonical].
Qed.

Lemma cleanup_merge_canonical diffs : canonical (cleanup_merge diffs).
Proof. apply merge_iter_canonical. Qed.

Lemma cleanup_semantic_canonical diffs : canonical (cleanup_semantic diffs).
Proof. apply cleanup_merge_canonical. Qed.

(** ** The bisect midpoint splits properly *)

Lemma first_differ_prefix a b : first_differ a b -> common_prefix a b = [].
Proof.
  intros H. destruct a as [|x a], b as [|y b]; try reflexivity. simpl.
  destruct (Ascii.eqb x y) eqn:E; [|reflexivity].
  apply Ascii.eqb_eq in E. exfalso. exact (H x y a b eq_refl eq_refl E).
Qed.

Lemma last_differ_rev a b : last_differ a b -> first_differ (rev a) (rev b).
Proof.
  intros H x y a' b' Ha Hb.
  apply (H x y (rev a') (rev b')).
  - rewrite <- (rev_involutive a), Ha. reflexivity.
  - rewrite <- (rev_involutive b), Hb. reflexivity.
Qed.

Lemma first_differ_rev a b : first_differ a b -> last_differ (rev a) (rev b).
Proof.
  intros H x y a' b' Ha Hb.
  apply (H x y (rev a') (rev b')).
  - rewrite <- (rev_involutive a), Ha, rev_app_distr. reflexivity.
  - rewrite <- (rev_involutive b), Hb, rev_app_distr. reflexivity.
Qed.

Lemma common_prefix_length_le_l a b : length (common_prefix a b) <= length a.
Proof.
  revert b; induction a as [|x a IH]; intros [|y b]; simpl; try lia.
  destruct (Ascii.eqb x y); simpl; [specialize (IH b)|]; lia.
Qed.

Lemma common_prefix_full a b :
  length (common_prefix a b) = length a -> length a = length b -> a = b.
Proof.
  revert b; induction a as [|x a IH]; intros [|y b]; simpl; try discriminate;
    try reflexivity.
  destruct (Ascii.eqb x y) eqn:E; simpl; [|discriminate].
  apply Ascii.eqb_eq in E. subst y. intros H1 H2. f_equal. apply IH; lia.
Qed.

(** A snake cannot end in the far corner when the last characters differ. *)
Lemma snake_corner a b p :
  last_differ a b ->
  snake a b p = (length a, length b) -> p = (length a, length b).
Proof.
  intros Hl. unfold snake. destruct p as [x y]. simpl fst. simpl snd.
  set (u := skipn x a). set (v := skipn y b).
  set (n := length (common_prefix u v)).
  intros [= Hx Hy].
  destruct n as [|n'] eqn:En; [f_equal; lia|]. exfalso.
  assert (Lu : length u = S n') by (unfold u; rewrite length_skipn; lia).
  assert (Lv : length v = S n') by (unfold v; rewrite length_skipn; lia).
  assert (Huv : u = v) by (apply common_prefix_full; fold n; lia).
  destruct (exists_last (l:=u)) as (u' & c & Hu).
  { intros E. rewrite E in Lu. discriminate. }
  apply (Hl c c (firstn x a ++ u') (firstn y b ++ u')); [| |reflexivity].
  - rewrite <- app_assoc, <- Hu. unfold u. now rewrite firstn_skipn.
  - rewrite <- app_assoc, <- Hu, Huv. unfold v. now rewrite firstn_skipn.
Qed.

Lemma snake_origin a b : first_differ a b -> snake a b (0, 0) = (0, 0).
Proof.
  intros H. unfold snake. simpl. now rewrite (first_differ_prefix _ _ H).
Qed.

Lemma snake_diag a b p :
  fst (snake a b p) + snd p = snd (snake a b p) + fst p
  /\ fst p <= fst (snake a b p) /\ snd p <= snd (snake a b p).
Proof. unfold snake. simpl. lia. Qed.

Lemma snake_right a b p :
  fst (snake a b (right p)) + snd p = snd (snake a b (right p)) + S (fst p)
  /\ S (fst p) <= fst (snake a b (right p))
  /\ snd p <= snd (snake a b (right p)).
Proof. unfold snake, right. simpl. lia. Qed.

Lemma snake_down a b p :
  fst (snake a b (down p)) + S (snd p) = snd (snake a b (down p)) + fst p
  /\ fst p <= fst (snake a b (down p))
  /\ S (snd p) <= snd (snake a b (down p)).
Proof. unfold snake, down. simpl. lia. Qed.

(** *** Shape of the rows *)

Lemma extend_row_diags a b row : forall d i,
  on_diags d i row -> on_diags (S d) (S i) (extend_row a b row).
Proof.
  induction row as [|p tl IH]; intros d i H; [exact I|].
  cbn [extend_row]. destruct tl as [|q tl'].
  - cbn [on_diags] in *. destruct H as [[H1 H2] _].
    pose proof (snake_right a b p) as Hs. repeat split; lia.
  - specialize (IH d (S i)).
    cbn [on_diags] in H. destruct H as [[H1 H2] [[H3 H4] H5]].
    cbn [on_diags]. split.
    + destruct (fst p <? fst q).
      * pose proof (snake_down a b q) as Hs. lia.
      * pose proof (snake_right a b p) as Hs. lia.
    + apply IH. cbn [on_diags]. auto.
Qed.

Lemma length_extend_row a b row : length (extend_row a b row) = length row.
Proof.
  induction row as [|p tl IH]; [reflexivity|].
  cbn [extend_row]. destruct tl; [reflexivity|].
  cbn [length] in *. now rewrite IH.
Qed.

Lemma rows_shape a b d :
  on_diags d 0 (rows a b (S d)) /\ length (rows a b (S d)) = S d.
Proof.
  induction d as [|d [IH1 IH2]].
  - unfold rows. simpl. unfold snake. simpl. repeat split; lia.
  - change (rows a b (S (S d))) with (next_row a b (rows a b (S d))).
    destruct (rows a b (S d)) as [|p tl] eqn:E; [discriminate|].
    cbn [next_row]. split.
    + cbn [on_diags]. split.
      * cbn [on_diags] in IH1. destruct IH1 as [[H1 H2] _].
        pose proof (snake_down a b p) as Hs. lia.
      * now apply extend_row_diags.
    + cbn [length]. rewrite length_extend_row. now rewrite IH2.
Qed.

Lemma on_diags_nth row : forall d i j p,
  on_diags d i row -> nth_error row j = Some p ->
  fst p + d = snd p + 2 * (i + j) /\ d <= fst p + snd p.
Proof.
  induction row as [|q tl IH]; intros d i j p H Hn; [now destruct j|].
  cbn [on_diags] in H. destruct H as [Hq Htl]. destruct j as [|j].
  - injection Hn as <-. rewrite Nat.add_0_r. exact Hq.
  - replace (i + S j) with (S i + j) by lia. now apply (IH d (S i) j p).
Qed.

Lemma rows_far a b d p : In p (rows a b (S d)) -> d <= fst p + snd p.
Proof.
  intros Hin. apply In_nth_error in Hin. destruct Hin as [j Hj].
  exact (proj2 (on_diags_nth _ _ _ _ _ (proj1 (rows_shape a b d)) Hj)).
Qed.

(** An odd stage has a point on the diagonal +1 and one on -1. *)
Lemma rows_odd_diagonals a b m :
  (exists p, In p (rows a b (S (2 * m + 1))) /\ fst p = S (snd p))
  /\ (exists p, In p (rows a b (S (2 * m + 1))) /\ snd p = S (fst p)).
Proof.
  destruct (rows_shape a b (2 * m + 1)) as [Hd Hl]. split.
  - destruct (nth_error (rows a b (S (2 * m + 1))) (S m)) as [p|] eqn:E.
    + exists p. split; [eapply nth_error_In; eauto|].
      destruct (on_diags_nth _ _ _ _ _ Hd E). lia.
    + apply nth_error_None in E. lia.
  - destruct (nth_error (rows a b (S (2 * m + 1))) m) as [p|] eqn:E.
    + exists p. split; [eapply nth_error_In; eauto|].
      destruct (on_diags_nth _ _ _ _ _ Hd E). lia.
    + apply nth_error_None in E. lia.
Qed.

(** *** Where a point of a row comes from *)

Lemma extend_row_from a b row p :
  In p (extend_row a b row) ->
  exists p', In p' row /\ (p = snake a b (down p') \/ p = snake a b (right p')).
Proof.
  induction row as [|q tl IH]; [intros []|].
  cbn [extend_row]. destruct tl as [|q' tl'].
  - intros [<-|[]]. exists q. split; [now left|now right].
  - intros [<-|Hin].
    + destruct (fst q <? fst q').
      * exists q'. split; [right; now left|now left].
      * exists q. split; [now left|now right].
    + destruct (IH Hin) as (p' & Hp' & Hp). exists p'. split; [now right|exact Hp].
Qed.

Lemma rows_from a b d p :
  In p (rows a b (S (S d))) ->
  exists p', In p' (rows a b (S d))
             /\ (p = snake a b (down p') \/ p = snake a b (right p')).
Proof.
  change (rows a b (S (S d))) with (next_row a b (rows a b (S d))).
  destruct (rows a b (S d)) as [|q tl] eqn:E.
  - pose proof (proj2 (rows_shape a b d)) as H. rewrite E in H. discriminate.
  - cbn [next_row]. intros [<-|Hin].
    + exists q. split; [now left|now left].
    + now apply extend_row_from.
Qed.

(** The point before the far corner. *)
Lemma rows_corner_from a b d :
  last_differ a b ->
  In (length a, length b) (rows a b (S (S d))) ->
  (In (length a - 1, length b) (rows a b (S d)) /\ 1 <= length a)
  \/ (In (length a, length b - 1) (rows a b (S d)) /\ 1 <= length b).
Proof.
  intros Hl Hin. destruct (rows_from _ _ _ _ Hin) as (p' & Hp' & [Hp|Hp]);
    symmetry in Hp; apply (snake_corner _ _ _ Hl) in Hp; destruct p' as [x y];
    unfold down, right in Hp; simpl in Hp; injection Hp as Hx Hy.
  - right. subst x. replace (length b - 1) with y by lia. split; [exact Hp'|lia].
  - left. subst y. replace (length a - 1) with x by lia. split; [exact Hp'|lia].
Qed.

(** *** The first overlap is a proper split *)

Lemma find_not_none {A} (f : A -> bool) l x :
  In x l -> f x = true -> find f l <> None.
Proof.
  intros Hin Hf Hnone. pose proof (find_none f l Hnone x Hin). congruence.
Qed.

Lemma overlap_spec N M others p :
  overlap N M others p = true <->
  fst p <= N /\ snd p <= M
  /\ exists q, In q others
               /\ fst p + fst q + M = N + snd p + snd q /\ N <= fst p + fst q.
Proof.
  unfold overlap, in_grid, crossed.
  rewrite !andb_true_iff, !Nat.leb_le, existsb_exists. split.
  - intros [[H1 H2] (q & Hq & Hc)]. rewrite andb_true_iff in Hc.
    rewrite Nat.eqb_eq, Nat.leb_le in Hc. eauto 6.
  - intros (H1 & H2 & q & Hq & Hc). repeat split; try assumption.
    exists q. split; [assumption|]. now rewrite andb_true_iff, Nat.eqb_eq, Nat.leb_le.
Qed.

Lemma rows_one a b : first_differ a b -> rows a b 1 = [(0, 0)].
Proof. intros H. unfold rows. simpl. now rewrite snake_origin. Qed.

(** The core of the argument.  The point before the far corner overlaps
    with any row that has a point on the diagonal +1 and one on -1. *)
Lemma corner_pred_overlap a b k (oth : list point) :
  last_differ a b -> 1 <= length a -> 1 <= length b ->
  In (length a, length b) (rows a b (S (S k))) ->
  (exists q, In q oth /\ fst q = S (snd q)) ->
  (exists q, In q oth /\ snd q = S (fst q)) ->
  exists p', In p' (rows a b (S k))
             /\ overlap (length a) (length b) oth p' = true.
Proof.
  intros Hl HN HM Hin (q1 & Hq1 & D1) (q2 & Hq2 & D2).
  destruct (rows_corner_from _ _ _ Hl Hin) as [[H _]|[H _]].
  - exists (length a - 1, length b). split; [exact H|].
    apply overlap_spec. cbn [fst snd]. repeat split; try lia.
    exists q1. repeat split; [assumption|lia|lia].
  - exists (length a, length b - 1). split; [exact H|].
    apply overlap_spec. cbn [fst snd]. repeat split; try lia.
    exists q2. repeat split; [assumption|lia|lia].
Qed.

Lemma rows_parity a b k j p :
  nth_error (rows a b (S k)) j = Some p -> fst p + k = snd p + 2 * j.
Proof.
  intros H. exact (proj1 (on_diags_nth _ _ _ _ _ (proj1 (rows_shape a b k)) H)).
Qed.

Lemma odd_sum_stage N M k j :
  N + k = M + 2 * j -> Nat.odd (N + M) = Nat.odd k.
Proof.
  intros H. rewrite <- (Nat.odd_add_mul_2 (N + M) k).
  replace (N + M + 2 * k) with (k + 2 * (M + j)) by lia.
  apply Nat.odd_add_mul_2.
Qed.

Lemma corner_stage a b k :
  In (length a, length b) (rows a b (S k)) ->
  Nat.odd (length a + length b) = Nat.odd k.
Proof.
  intros Hin. destruct (In_nth_error _ _ Hin) as [j Hj].
  pose proof (rows_parity _ _ _ _ _ Hj) as Hpar. cbn [fst snd] in Hpar.
  exact (odd_sum_stage _ _ _ _ Hpar).
Qed.

Lemma fwd_found_proper a b k p :
  first_differ a b -> last_differ a b ->
  1 <= length a -> 1 <= length b ->
  (1 <= k -> fwd_test a b (k - 1) = None) ->
  fwd_test a b k = Some p ->
  proper (length a) (length b) p.
Proof.
  intros Hf Hl HN HM Hprev. unfold fwd_test.
  destruct (Nat.odd (length a + length b)) eqn:Eodd; [|discriminate].
  intros Hfind. apply find_some in Hfind. destruct Hfind as [Hin Hov].
  apply overlap_spec in Hov. destruct Hov as (Hx & Hy & q & Hq & Hd & Hc).
  destruct k as [|k]; [destruct Hq|].
  pose proof (rows_far _ _ _ _ Hin) as Hfar.
  unfold proper. repeat split; try lia.
  destruct (Nat.eq_dec (fst p + snd p) (length a + length b)) as [E|]; [|lia].
  exfalso.
  assert (Hp : p = (length a, length b)) by (destruct p; simpl in *; f_equal; lia).
  subst p.
  pose proof (corner_stage _ _ _ Hin) as Hst. rewrite Eodd in Hst.
  symmetry in Hst. apply Nat.odd_spec in Hst. destruct Hst as [m Hm].
  assert (Ek : k = 2 * m) by lia. subst k. clear Hm.
  specialize (Hprev ltac:(lia)). unfold fwd_test in Hprev.
  rewrite Eodd in Hprev.
  replace (S (2 * m) - 1) with (2 * m) in Hprev by lia.
  destruct m as [|m].
  - change (2 * 0) with 0 in *.
    destruct (rows_corner_from _ _ _ Hl Hin) as [[H _]|[H _]];
      rewrite (rows_one _ _ Hf) in H; destruct H as [H|[]]; injection H; lia.
  - destruct (rows_odd_diagonals (rev a) (rev b) m) as [D1 D2].
    replace (S (2 * m + 1)) with (2 * S m) in D1, D2 by lia.
    destruct (corner_pred_overlap a b (2 * S m) _ Hl HN HM Hin D1 D2)
      as (p' & Hp' & Hov').
    exact (find_not_none _ _ _ Hp' Hov' Hprev).
Qed.

Lemma rev_found_proper a b k q :
  first_differ a b -> last_differ a b ->
  1 <= length a -> 1 <= length b ->
  (1 <= k -> rev_test a b (k - 1) = None) ->
  rev_test a b k = Some q ->
  proper (length a) (length b) (length a - fst q, length b - snd q).
Proof.
  intros Hf Hl HN HM Hprev. unfold rev_test.
  destruct (Nat.even (length a + length b)) eqn:Eev; [|discriminate].
  intros Hfind. apply find_some in Hfind. destruct Hfind as [Hin Hov].
  apply overlap_spec in Hov. destruct Hov as (Hx & Hy & p & Hp & Hd & Hc).
  pose proof (first_differ_rev _ _ Hf) as Hl'.
  pose proof (last_differ_rev _ _ Hl) as Hf'.
  assert (Hfar : 1 <= fst q + snd q).
  { destruct k as [|k]; [|pose proof (rows_far _ _ _ _ Hin); lia].
    exfalso. rewrite (rows_one _ _ Hf') in Hin. rewrite (rows_one _ _ Hf) in Hp.
    destruct Hin as [<-|[]]. destruct Hp as [<-|[]]. simpl in *. lia. }
  unfold proper. simpl fst. simpl snd. repeat split; try lia.
  destruct (Nat.eq_dec (fst q + snd q) (length a + length b)) as [E|]; [|lia].
  exfalso.
  assert (Hq : q = (length (rev a), length (rev b))).
  { rewrite !length_rev. destruct q; simpl in *; f_equal; lia. }
  subst q.
  pose proof (corner_stage _ _ _ Hin) as Hst. rewrite !length_rev in Hst.
  rewrite <- Nat.negb_even, Eev in Hst. simpl in Hst.
  assert (Hk : Nat.even k = true) by (rewrite <- Nat.negb_odd, <- Hst; reflexivity).
  apply Nat.even_spec in Hk. destruct Hk as [m Hm]. subst k.
  destruct m as [|m].
  - change (2 * 0) with 0 in *. rewrite (rows_one _ _ Hf') in Hin.
    destruct Hin as [H|[]]. injection H. rewrite !length_rev. lia.
  - specialize (Hprev ltac:(lia)). unfold rev_test in Hprev.
    rewrite Eev in Hprev.
    replace (2 * S m - 1) with (2 * m + 1) in Hprev by lia.
    destruct (rows_odd_diagonals a b m) as [D1 D2].
    replace (S (2 * S m)) with (S (S (2 * m + 1))) in Hin by lia.
    rewrite <- (length_rev a) in HN. rewrite <- (length_rev b) in HM.
    destruct (corner_pred_overlap (rev a) (rev b) (2 * m + 1) _ Hl' HN HM Hin D1 D2)
      as (q' & Hq' & Hov').
    rewrite !length_rev in Hov'.
    exact (find_not_none _ _ _ Hq' Hov' Hprev).
Qed.

Lemma bisect_search_proper a b stages : forall k pt,
  first_differ a b -> last_differ a b ->
  1 <= length a -> 1 <= length b ->
  (1 <= k -> fwd_test a b (k - 1) = None /\ rev_test a b (k - 1) = None) ->
  bisect_search a b (rev a) (rev b) (length a) (length b) stages
    (rows a b k) (rows (rev a) (rev b) k) = Some pt ->
  proper (length a) (length b) pt.
Proof.
  induction stages as [|stages IH]; intros k pt Hf Hl HN HM Hprev;
    [discriminate|].
  cbn [bisect_search].
  change (next_row a b (rows a b k)) with (rows a b (S k)).
  change (next_row (rev a) (rev b) (rows (rev a) (rev b) k))
    with (rows (rev a) (rev b) (S k)).
  fold (fwd_test a b k). fold (rev_test a b k).
  destruct (fwd_test a b k) as [p|] eqn:Efwd.
  - intros [= <-]. apply (fwd_found_proper a b k p); try assumption.
    intros Hk. exact (proj1 (Hprev Hk)).
  - destruct (rev_test a b k) as [q|] eqn:Erev.
    + intros [= <-]. apply (rev_found_proper a b k q); try assumption.
      intros Hk. exact (proj2 (Hprev Hk)).
    + apply IH; try assumption.
      intros _. replace (S k - 1) with k by lia. now split.
Qed.

(** The midpoint of bisect leaves both halves strictly smaller. *)
Lemma bisect_midpoint_proper a b pt :
  first_differ a b -> last_differ a b ->
  1 <= length a -> 1 <= length b ->
  bisect_midpoint a b = Some pt ->
  proper (length a) (length b) pt.
Proof.
  intros Hf Hl HN HM H. unfold bisect_midpoint in H.
  apply (bisect_search_proper a b (S (length a + length b)) 0 pt Hf Hl HN HM);
    [lia|exact H].
Qed.

(** ** Half-match *)

Lemma half_match_at_split long short i j :
  let h := half_match_at long short i j in
  long = long_prefix h ++ common_middle h ++ long_suffix h
  /\ short = short_prefix h ++ common_middle h ++ short_suffix h.
Proof.
  unfold half_match_at. cbn [long_prefix long_suffix short_prefix short_suffix
                              common_middle].
  set (lp := firstn i long). set (ls := skipn i long).
  set (sp := firstn j short). set (ss := skipn j short).
  split.
  - rewrite <- (firstn_skipn i long) at 1. fold lp ls.
    rewrite <- (common_suffix_split_l lp sp) at 1.
    rewrite <- (common_prefix_split_l ls ss) at 1.
    now rewrite <- !app_assoc.
  - rewrite <- (firstn_skipn j short) at 1. fold sp ss.
    rewrite <- (common_suffix_split_r lp sp) at 1.
    rewrite <- (common_prefix_split_r ls ss) at 1.
    now rewrite <- !app_assoc.
Qed.

Lemma best_of_in hs : forall best h,
  best_of hs best = Some h -> best = Some h \/ In h hs.
Proof.
  induction hs as [|x hs IH]; intros best h; cbn [best_of]; [now left|].
  destruct best as [b|]; intros H; apply IH in H.
  - destruct H as [H|H]; [|right; now right].
    destruct (better x b); injection H as <-; [right; now left|now left].
  - destruct H as [H|H]; [injection H as <-; right; now left|right; now right].
Qed.

Lemma half_match_long_split long short h :
  half_match_long long short = Some h ->
  long = long_prefix h ++ common_middle h ++ long_suffix h
  /\ short = short_prefix h ++ common_middle h ++ short_suffix h
  /\ common_middle h <> [].
Proof.
  unfold half_match_long.
  destruct ((10 <? length long) && (length long <=? 4 * length short)) eqn:Ec;
    [|discriminate].
  apply andb_prop in Ec. destruct Ec as [Ec _]. apply Nat.ltb_lt in Ec.
  destruct (best_of _ None) as [h'|] eqn:Eb; [|discriminate].
  destruct (length long <=? 2 * length (common_middle h')) eqn:El; [|discriminate].
  intros [= <-]. apply Nat.leb_le in El.
  apply best_of_in in Eb. destruct Eb as [Eb|Eb]; [discriminate|].
  assert (Hat : exists i j, h' = half_match_at long short i j).
  { apply in_app_or in Eb. unfold half_match_seed in Eb.
    destruct Eb as [Eb|Eb]; apply in_map_iff in Eb;
      destruct Eb as (j & <- & _); eauto. }
  destruct Hat as (i & j & ->).
  destruct (half_match_at_split long short i j) as [H1 H2].
  split; [exact H1|]. split; [exact H2|].
  intros E. rewrite E in El. simpl in El. lia.
Qed.

Lemma half_match_split a b a1 a2 b1 b2 mid :
  half_match a b = Some (a1, a2, b1, b2, mid) ->
  a = a1 ++ mid ++ a2 /\ b = b1 ++ mid ++ b2 /\ mid <> [].
Proof.
  unfold half_match. destruct (length b <? length a).
  - destruct (half_match_long a b) as [h|] eqn:E; [|discriminate].
    intros [= <- <- <- <- <-].
    destruct (half_match_long_split _ _ _ E) as (H1 & H2 & H3). auto.
  - destruct (half_match_long b a) as [h|] eqn:E; [|discriminate].
    intros [= <- <- <- <- <-].
    destruct (half_match_long_split _ _ _ E) as (H1 & H2 & H3). auto.
Qed.

(** ** The recursion returns the two inputs *)

Lemma both_some x y mid ds :
  both x y mid = Some ds ->
  exists dx dy, x = Some dx /\ y = Some dy /\ ds = dx ++ mid ++ dy.
Proof.
  unfold both. destruct x as [dx|], y as [dy|]; try discriminate.
  intros [= <-]. eauto.
Qed.

Lemma diff_bisect_sound rec a b ds :
  sound rec -> diff_bisect rec a b = Some ds ->
  diff_text1 ds = a /\ diff_text2 ds = b.
Proof.
  intros Hrec. unfold diff_bisect.
  destruct (bisect_midpoint a b) as [[x y]|].
  - intros H. apply both_some in H. destruct H as (dx & dy & Hx & Hy & ->).
    apply Hrec in Hx, Hy. destruct Hx as [X1 X2], Hy as [Y1 Y2].
    rewrite !diff_text1_app, !diff_text2_app, X1, X2, Y1, Y2. simpl.
    now rewrite !firstn_skipn.
  - intros [= <-]. simpl. now rewrite !app_nil_r.
Qed.

Lemma diff_compute_sound rec a b ds :
  sound rec -> diff_compute rec a b = Some ds ->
  diff_text1 ds = a /\ diff_text2 ds = b.
Proof.
  intros Hrec. unfold diff_compute.
  destruct a as [|ca a']; [intros [= <-]; simpl; now rewrite app_nil_r|].
  destruct b as [|cb b']; [intros [= <-]; simpl; now rewrite app_nil_r|].
  remember (ca :: a') as a eqn:Ea. remember (cb :: b') as b eqn:Eb.
  clear Ea Eb ca a' cb b'.
  destruct (find_sub a b) as [i|] eqn:Eab.
  { intros [= <-]. apply find_sub_split in Eab.
    rewrite !diff_text1_app, !diff_text2_app, !diff_text1_op, !diff_text2_op.
    split; [cbn [app]; apply app_nil_r|now symmetry]. }
  destruct (find_sub b a) as [i|] eqn:Eba.
  { intros [= <-]. apply find_sub_split in Eba.
    rewrite !diff_text1_app, !diff_text2_app, !diff_text1_op, !diff_text2_op.
    split; [now symmetry|cbn [app]; apply app_nil_r]. }
  destruct (Nat.min (length a) (length b) =? 1).
  { intros [= <-]. simpl. now rewrite !app_nil_r. }
  destruct (half_match a b) as [[[[[a1 a2] b1] b2] mid]|] eqn:Eh.
  - intros H. apply both_some in H. destruct H as (dx & dy & Hx & Hy & ->).
    apply Hrec in Hx, Hy. destruct Hx as [X1 X2], Hy as [Y1 Y2].
    apply half_match_split in Eh. destruct Eh as (Ha & Hb & _).
    rewrite !diff_text1_app, !diff_text2_app, X1, X2, Y1, Y2.
    unfold diff_text1, diff_text2. simpl. rewrite !app_nil_r.
    split; symmetry; assumption.
  - now apply diff_bisect_sound.
Qed.

Lemma diff_rec_sound fuel : sound (diff_rec fuel).
Proof.
  induction fuel as [|fuel IH]; intros a b ds; [discriminate|].
  cbn [diff_rec]. destruct (string_eqb a b) eqn:E.
  - apply string_eqb_eq in E. subst b. intros [= <-].
    now rewrite diff_text1_op, diff_text2_op.
  - set (p := common_prefix a b).
    set (a1 := drop_front (length p) a). set (b1 := drop_front (length p) b).
    set (s := common_suffix a1 b1).
    destruct (diff_compute _ _ _) as [d|] eqn:Ec; [|discriminate].
    intros [= <-]. apply (diff_compute_sound _ _ _ _ IH) in Ec.
    destruct Ec as [C1 C2].
    rewrite !diff_text1_app, !diff_text2_app, !diff_text1_op, !diff_text2_op,
      C1, C2.
    unfold s. rewrite common_suffix_split_l, common_suffix_split_r.
    unfold a1, b1, p. now rewrite common_prefix_split_l, common_prefix_split_r.
Qed.

(** ** The recursion ends *)

Lemma common_suffix_maximal a b x y ra rb :
  drop_back (length (common_suffix a b)) a = ra ++ [x] ->
  drop_back (length (common_suffix a b)) b = rb ++ [y] ->
  x <> y.
Proof.
  rewrite !drop_back_rev, common_suffix_length. intros Ha Hb.
  apply (f_equal (@rev ascii)) in Ha, Hb.
  rewrite rev_involutive, rev_app_distr in Ha, Hb. simpl in Ha, Hb.
  exact (common_prefix_maximal _ _ _ _ _ _ Ha Hb).
Qed.

Lemma both_total rec x1 y1 x2 y2 mid n :
  total_below rec n -> size x1 y1 < n -> size x2 y2 < n ->
  exists ds, both (rec x1 y1) (rec x2 y2) mid = Some ds.
Proof.
  intros Hrec H1 H2.
  destruct (Hrec _ _ H1) as [d1 ->]. destruct (Hrec _ _ H2) as [d2 ->].
  simpl. eauto.
Qed.

Lemma diff_compute_total rec a b :
  total_below rec (size a b) ->
  first_differ a b -> last_differ a b ->
  exists ds, diff_compute rec a b = Some ds.
Proof.
  intros Hrec Hf Hl. unfold diff_compute.
  destruct a as [|ca a']; [eauto|]. destruct b as [|cb b']; [eauto|].
  remember (ca :: a') as a eqn:Ea. remember (cb :: b') as b eqn:Eb.
  assert (HN : 1 <= length a) by (subst a; simpl; lia).
  assert (HM : 1 <= length b) by (subst b; simpl; lia).
  clear Ea Eb ca a' cb b'.
  destruct (find_sub a b); [eauto|]. destruct (find_sub b a); [eauto|].
  destruct (Nat.min (length a) (length b) =? 1); [eauto|].
  destruct (half_match a b) as [[[[[a1 a2] b1] b2] mid]|] eqn:Eh.
  - apply half_match_split in Eh. destruct Eh as (Ha & Hb & Hm).
    assert (0 < length mid) by (destruct mid; [congruence|simpl; lia]).
    apply (both_total rec _ _ _ _ _ (size a b) Hrec); unfold size;
      rewrite Ha, Hb, !length_app; lia.
  - unfold diff_bisect.
    destruct (bisect_midpoint a b) as [[x y]|] eqn:Em; [|eauto].
    apply bisect_midpoint_proper in Em; try assumption.
    destruct Em as (Hx & Hy & Hpos & Hlt). simpl in Hx, Hy, Hpos, Hlt.
    apply (both_total rec _ _ _ _ _ (size a b) Hrec); unfold size;
      rewrite ?length_firstn, ?length_skipn; lia.
Qed.

Lemma drop_back_prefix n (s : string_t) : exists r, s = drop_back n s ++ r.
Proof. exists (skipn (length s - n) s). unfold drop_back. now rewrite firstn_skipn. Qed.

Lemma length_drop_back n (s : string_t) : length (drop_back n s) <= length s.
Proof. unfold drop_back. rewrite length_firstn. lia. Qed.

Lemma length_drop_front n (s : string_t) : length (drop_front n s) <= length s.
Proof. unfold drop_front. rewrite length_skipn. lia. Qed.

Lemma diff_rec_total fuel : forall a b,
  size a b < fuel -> exists ds, diff_rec fuel a b = Some ds.
Proof.
  induction fuel as [|fuel IH]; intros a b Hsz; [lia|].
  cbn [diff_rec]. destruct (string_eqb a b); [eauto|].
  set (p := common_prefix a b).
  set (a1 := drop_front (length p) a). set (b1 := drop_front (length p) b).
  set (s := common_suffix a1 b1).
  set (a2 := drop_back (length s) a1). set (b2 := drop_back (length s) b1).
  assert (Hle : size a2 b2 <= size a b).
  { unfold size, a2, b2, a1, b1.
    pose proof (length_drop_back (length s) (drop_front (length p) a)).
    pose proof (length_drop_back (length s) (drop_front (length p) b)).
    pose proof (length_drop_front (length p) a).
    pose proof (length_drop_front (length p) b). lia. }
  destruct (diff_compute_total (diff_rec fuel) a2 b2) as [ds ->]; [| | |eauto].
  - intros x y Hxy. apply IH. lia.
  - intros x y a' b' Ha Hb.
    destruct (drop_back_prefix (length s) a1) as [ra Hra].
    destruct (drop_back_prefix (length s) b1) as [rb Hrb].
    fold a2 in Hra. fold b2 in Hrb. rewrite Ha in Hra. rewrite Hb in Hrb.
    exact (common_prefix_maximal a b x y _ _ Hra Hrb).
  - intros x y a' b' Ha Hb.
    exact (common_suffix_maximal a1 b1 x y a' b' Ha Hb).
Qed.

(** The raw diff of two inputs stands for these inputs. *)
Lemma diff_raw_texts a b :
  diff_text1 (diff_raw a b) = a /\ diff_text2 (diff_raw a b) = b.
Proof.
  unfold diff_raw.
  destruct (diff_rec_total (S (length a + length b)) a b) as [ds E];
    [unfold size; lia|].
  rewrite E. exact (diff_rec_sound _ _ _ _ E).
Qed.

(** ** The merge iteration reaches its fixpoint *)

Lemma merge_weight_cons d l :
  merge_weight (d :: l)
  = 2 * length (text d) + Nat.min 1 (length (text d)) + merge_weight l.
Proof. reflexivity. Qed.

Lemma merge_weight_app l1 l2 :
  merge_weight (l1 ++ l2) = merge_weight l1 + merge_weight l2.
Proof.
  induction l1 as [|d l1 IH]; [reflexivity|].
  cbn [app]. rewrite !merge_weight_cons, IH. lia.
Qed.

Lemma coalesce_weight l : merge_weight (coalesce l) <= merge_weight l.
Proof.
  induction l as [|d rest IH]; [apply le_n|].
  cbn [coalesce]. rewrite merge_weight_cons.
  destruct (text d) as [|c t] eqn:Et; [simpl; lia|].
  destruct (coalesce rest) as [|e r].
  - rewrite merge_weight_cons, ?Et. cbn [length] in *. lia.
  - destruct (Operation_eqb (operation d) (operation e)).
    + rewrite !merge_weight_cons in *. cbn [text]. rewrite ?Et, length_app.
      cbn [length] in *. lia.
    + rewrite !merge_weight_cons in *. rewrite ?Et. cbn [length] in *. lia.
Qed.

Lemma flush_weight del ins :
  merge_weight (flush del ins)
  <= 2 * (length del + length ins)
     + Nat.min 1 (length del) + Nat.min 1 (length ins).
Proof.
  unfold flush.
  set (p := common_prefix del ins).
  set (del1 := drop_front (length p) del).
  set (ins1 := drop_front (length p) ins).
  set (s := common_suffix del1 ins1).
  pose proof (f_equal (@length ascii) (common_prefix_split_l del ins)) as L1.
  pose proof (f_equal (@length ascii) (common_prefix_split_r del ins)) as L2.
  pose proof (f_equal (@length ascii) (common_suffix_split_l del1 ins1)) as L3.
  pose proof (f_equal (@length ascii) (common_suffix_split_r del1 ins1)) as L4.
  rewrite length_app in L1, L2, L3, L4. fold p del1 ins1 in L1, L2. fold s in L3, L4.
  rewrite !merge_weight_cons. cbn [text merge_weight fold_right]. lia.
Qed.

Lemma merge_walk_weight diffs : forall del ins,
  merge_weight (merge_walk diffs del ins)
  <= merge_weight diffs + 2 * (length del + length ins)
     + Nat.min 1 (length del) + Nat.min 1 (length ins).
Proof.
  induction diffs as [|d rest IH]; intros del ins; cbn [merge_walk].
  - pose proof (flush_weight del ins). change (merge_weight []) with 0. lia.
  - rewrite merge_weight_cons. destruct (operation d).
    + specialize (IH (del ++ text d) ins). rewrite length_app in IH. lia.
    + specialize (IH del (ins ++ text d)). rewrite length_app in IH. lia.
    + destruct (text d) as [|c t] eqn:Et.
      * specialize (IH del ins). cbn [length]. lia.
      * rewrite merge_weight_app, merge_weight_cons, ?Et.
        pose proof (flush_weight del ins). specialize (IH [] []).
        cbn [length] in *. lia.
Qed.

Lemma normalize_weight diffs : merge_weight (normalize diffs) <= merge_weight diffs.
Proof.
  unfold normalize.
  pose proof (coalesce_weight (merge_walk diffs [] [])).
  pose proof (merge_walk_weight diffs [] []). cbn [length] in *. lia.
Qed.

Lemma shift_once_weight diffs : forall diffs',
  Forall (fun d => text d <> []) diffs ->
  shift_once diffs = Some diffs' ->
  merge_weight diffs' < merge_weight diffs.
Proof.
  induction diffs as [|e1 tl IH]; intros diffs' Hne; [discriminate|].
  cbn [shift_once].
  assert (Hrec : option_map (cons e1) (shift_once tl) = Some diffs' ->
                 merge_weight diffs' < merge_weight (e1 :: tl)).
  { destruct (shift_once tl) as [tl'|] eqn:E; [|discriminate].
    intros [= <-]. inversion Hne; subst.
    specialize (IH tl' ltac:(assumption) eq_refl).
    rewrite !merge_weight_cons. lia. }
  destruct tl as [|x [|e2 rest]]; try discriminate.
  assert (Hpos : forall d, In d (e1 :: x :: e2 :: rest) -> 1 <= length (text d)).
  { intros d Hd. rewrite Forall_forall in Hne. specialize (Hne d Hd).
    destruct (text d); [congruence|simpl; lia]. }
  pose proof (Hpos e1 ltac:(simpl; auto)) as P1.
  pose proof (Hpos x ltac:(simpl; auto)) as Px.
  pose proof (Hpos e2 ltac:(simpl; auto)) as P2.
  destruct (is_equal e1 && negb (is_equal x) && is_equal e2); [|exact Hrec].
  destruct (ends_with (text e1) (text x)) eqn:Ee.
  - intros [= <-]. apply ends_with_split in Ee.
    apply (f_equal (@length ascii)) in Ee. rewrite length_app in Ee.
    rewrite !merge_weight_cons. cbn [text]. rewrite !length_app. lia.
  - destruct (starts_with (text e2) (text x)) eqn:Es; [|exact Hrec].
    intros [= <-]. apply starts_with_split in Es.
    apply (f_equal (@length ascii)) in Es. rewrite length_app in Es.
    rewrite !merge_weight_cons. cbn [text]. unfold drop_front.
    rewrite !length_app. lia.
Qed.

Lemma normalize_no_empty diffs : Forall (fun d => text d <> []) (normalize diffs).
Proof.
  apply Forall_forall. exact (proj1 (normalize_canonical diffs)).
Qed.

Lemma merge_iter_fixpoint fuel : forall diffs,
  merge_weight diffs <= fuel -> shift_once (merge_iter fuel diffs) = None.
Proof.
  induction fuel as [|fuel IH]; intros diffs Hw; cbn [merge_iter].
  - destruct (shift_once (normalize diffs)) as [d2|] eqn:E; [|reflexivity].
    apply shift_once_weight in E; [|apply normalize_no_empty].
    pose proof (normalize_weight diffs). lia.
  - destruct (shift_once (normalize diffs)) as [d2|] eqn:E; [|exact E].
    apply IH. apply shift_once_weight in E; [|apply normalize_no_empty].
    pose proof (normalize_weight diffs). lia.
Qed.

(** No shift applies to the result of the merge pass. *)
Lemma cleanup_merge_fixpoint diffs : shift_once (cleanup_merge diffs) = None.
Proof. apply merge_iter_fixpoint, le_n. Qed.

(** ** Scripts of at most one operation *)

Lemma common_suffix_nil_l b : common_suffix [] b = [].
Proof. reflexivity. Qed.

Lemma common_suffix_nil_r a : common_suffix a [] = [].
Proof. unfold common_suffix. simpl. now rewrite common_prefix_nil_r. Qed.

Lemma drop_back_0 (s : string_t) : drop_back 0 s = s.
Proof. unfold drop_back. rewrite Nat.sub_0_r. apply firstn_all. Qed.

Lemma normalize_single o t : t <> [] -> normalize [mkDiff o t] = [mkDiff o t].
Proof.
  intros Ht. unfold normalize. cbn [merge_walk operation text app].
  destruct t as [|c t]; [congruence|].
  destruct o; unfold flush.
  - rewrite common_prefix_nil_r. cbn [length drop_front skipn].
    rewrite common_suffix_nil_r. cbn [length]. now rewrite !drop_back_0.
  - cbn [common_prefix length drop_front skipn].
    rewrite common_suffix_nil_l. cbn [length]. now rewrite !drop_back_0.
  - reflexivity.
Qed.

Lemma cleanup_merge_single o t :
  t <> [] -> cleanup_merge [mkDiff o t] = [mkDiff o t].
Proof.
  intros Ht. unfold cleanup_merge.
  generalize (merge_weight [mkDiff o t]). intros fuel.
  destruct fuel; cbn [merge_iter]; rewrite (normalize_single o t Ht); reflexivity.
Qed.

Lemma cleanup_merge_nil : cleanup_merge [] = [].
Proof. reflexivity. Qed.

Lemma cleanup_semantic_nil : cleanup_semantic [] = [].
Proof. reflexivity. Qed.

Lemma cleanup_semantic_single o t :
  t <> [] -> cleanup_semantic [mkDiff o t] = [mkDiff o t].
Proof.
  intros Ht. unfold cleanup_semantic.
  assert (E : eliminate_short (align_boundaries [mkDiff o t]) = [mkDiff o t]).
  { destruct t as [|c t]; [congruence|]. now destruct o. }
  rewrite E. now apply cleanup_merge_single.
Qed.

Lemma diff_raw_same x : diff_raw x x = op EQUAL x.
Proof. unfold diff_raw. cbn [diff_rec]. now rewrite string_eqb_refl. Qed.

Lemma diff_raw_empty_l x : x <> [] -> diff_raw [] x = [mkDiff INSERT x].
Proof.
  intros Hx. destruct x as [|c x]; [congruence|]. unfold diff_raw.
  cbn [diff_rec string_eqb common_prefix length drop_front skipn].
  rewrite common_suffix_nil_l. cbn [length]. rewrite !drop_back_0. reflexivity.
Qed.

Lemma diff_raw_empty_r x : x <> [] -> diff_raw x [] = [mkDiff DELETE x].
Proof.
  intros Hx. destruct x as [|c x]; [congruence|]. unfold diff_raw.
  cbn [diff_rec string_eqb]. rewrite common_prefix_nil_r.
  cbn [length drop_front skipn]. rewrite common_suffix_nil_r. cbn [length].
  rewrite !drop_back_0. reflexivity.
Qed.

End EngineFacts.

(* ================================================================== *)
(** * The claims *)
(* ================================================================== *)

Section BindingClaims.
Context {LN : Number} {dmp : diff_match_patch}.

(** C3.  For every pair of string arguments, what [diff] returns to the host
    is one table whose sequence part alternates op code and text, one pair
    per edit operation and in order, with code -1 for DELETE, 0 for EQUAL and
    +1 for INSERT; it has twice as many entries as there are operations and
    no entry outside [1 .. 2n].  The conditions are that the [int] counter
    of the loop does not overflow and that no text holds a NUL byte (a text
    goes through [c_str()]); the operations are those of the arguments read
    as C strings. *)
Theorem diff_returns_flat_table (ord : arg_order) reg (a b : string_t)
    (rest : list value) :
  let ops := diff_ops (c_string a) (c_string b) in
  2 * Z.of_nat (length ops) <= INT_MAX ->
  Forall (fun d => nul_free (text d)) ops ->
  exists t : table,
    results (call (diff ord) reg (LString a :: LString b :: rest))
      = Some [LTable t]
    /\ table_seq t
       = flat_map
           (fun d => [LNumber (number_of_int
                                 match operation d with
                                 | DELETE => -1
                                 | EQUAL => 0
                                 | INSERT => 1
                                 end);
                      LString (text d)]) ops
    /\ length (table_seq t) = (2 * length ops)%nat
    /\ (forall n, table_get t n <> LNil
                  <-> 1 <= n <= 2 * Z.of_nat (length ops)).
Proof.
  intros ops Hmax Hnul.
  exists (table_of_list (flat ops)).
  assert (Hseq : table_seq (table_of_list (flat ops)) = flat ops)
    by apply table_seq_of_list, flat_not_nil.
  split; [|split; [|split]].
  - unfold call.
    rewrite (@diff_run _ _ ord reg (LString a :: LString b :: rest) a b)
      by reflexivity.
    rewrite results_top. fold ops.
    rewrite fill_table_flat by assumption.
    now rewrite c_strings_nul_free.
  - rewrite Hseq. unfold flat.
    apply flat_map_ext. intros d. now destruct (operation d).
  - now rewrite Hseq, length_flat.
  - intros n. rewrite table_of_list_keys by apply flat_not_nil.
    rewrite length_flat. lia.
Qed.

(** C4.  Whatever the arguments (strings, or numbers read as strings), the
    table [diff] returns is built from
    [diff_cleanupSemantic (diff_main a b false)] and from nothing else: the
    flat encoding of that list when the counter does not overflow; and an
    engine that differs only in its line mode ([checklines = true]) makes no
    difference to any call. *)
Theorem diff_charlevel_then_cleanup (ord : arg_order) reg (args : list value)
    (a b : string_t) :
  arg_string (nth_error args 0) = Some a ->
  arg_string (nth_error args 1) = Some b ->
  let cleaned := diff_cleanupSemantic (diff_main (c_string a) (c_string b) false) in
  results (call (diff ord) reg args)
    = Some [LTable (snd (fill_table cleaned 1 []))]
  /\ (2 * Z.of_nat (length cleaned) <= INT_MAX ->
      results (call (diff ord) reg args)
        = Some [LTable (table_of_list (flat (c_strings cleaned)))])
  /\ (forall dmp' : diff_match_patch,
        (forall x y, @diff_main dmp' x y false = @diff_main dmp x y false) ->
        (forall d, @diff_cleanupSemantic dmp' d = @diff_cleanupSemantic dmp d) ->
        call (@diff LN dmp' ord) reg args = call (@diff LN dmp ord) reg args).
Proof.
  intros Ha Hb cleaned.
  assert (E : results (call (diff ord) reg args)
              = Some [LTable (snd (fill_table cleaned 1 []))]).
  { unfold call. rewrite (diff_run ord reg args Ha Hb). now rewrite results_top. }
  split; [exact E|]. split.
  - intros Hmax. rewrite E. now rewrite fill_table_flat.
  - intros dmp' Hmain Hclean. unfold call.
    rewrite (@diff_run LN dmp' ord reg args a b Ha Hb).
    rewrite (@diff_run LN dmp ord reg args a b Ha Hb).
    unfold diff_ops. now rewrite Hmain, Hclean.
Qed.

(** C5.  When the first or the second argument is nil or missing, [diff]
    raises the argument error for one of the two and hands no value back;
    with two string arguments it returns normally, with one value. *)
Theorem diff_invalid_argument (ord : arg_order) reg (args : list value) :
  (absent (nth_error args 0) \/ absent (nth_error args 1) ->
   exists n, (n = 1 \/ n = 2)
     /\ call (diff ord) reg args = Raises (BadArgument n)
     /\ results (call (diff ord) reg args) = None)
  /\ (forall a b rest, args = LString a :: LString b :: rest ->
      exists L', call (diff ord) reg args = Returns 1 L'
                 /\ exists t, results (call (diff ord) reg args) = Some [LTable t]).
Proof.
  split.
  - intros H.
    assert (Hbad : arg_string (nth_error args 0) = None
                   \/ arg_string (nth_error args 1) = None).
    { destruct H as [[H|H]|[H|H]]; rewrite H; auto. }
    destruct (diff_raise ord reg args Hbad) as (n & Hn & _ & E).
    exists (Z.of_nat (S n)). unfold call. rewrite E.
    split; [destruct Hn; subst n; auto|]. split; reflexivity.
  - intros a b rest ->. unfold call.
    rewrite (@diff_run _ _ ord reg (LString a :: LString b :: rest) a b)
      by reflexivity.
    eexists. split; [reflexivity|]. eexists. apply results_top.
Qed.

(** C10.  The three entry points are the same function: each pushes the one
    C function [diff] and returns 1, so the module behaves alike under each
    of its names. *)
Theorem luaopen_entry_points_agree (L : lua_State) :
  luaopen_file_diff_diff L = luaopen_diff L
  /\ luaopen_file_diff_diffosx L = luaopen_diff L
  /\ luaopen_diff L
     = Returns 1 (mkState (registry L) (stack L ++ [LCFunction CF_diff]))
  /\ results (luaopen_diff L) = Some [LCFunction CF_diff]
  /\ forall ord, cfunction_body ord CF_diff = diff ord.
Proof.
  split; [reflexivity|]. split; [reflexivity|].
  assert (E : luaopen_diff L
              = Returns 1 (mkState (registry L) (stack L ++ [LCFunction CF_diff])))
    by reflexivity.
  split; [exact E|]. split; [|reflexivity].
  rewrite E. destruct L as [reg st]. apply results_top.
Qed.

End BindingClaims.

(** ** Further properties of diff.cxx *)

Section BindingExtras.
Context {LN : Number} {dmp : diff_match_patch}.

Lemma observation_top reg (st : list value) v :
  observation (Returns 1 (mkState reg (st ++ [v]))) = inl [v].
Proof.
  unfold observation. simpl stack. rewrite length_app. simpl length.
  replace (length st + 1 - Z.to_nat 1)%nat with (length st) by lia.
  now rewrite skipn_app, skipn_all, Nat.sub_diag.
Qed.

Lemma c_string_idempotent (s : string_t) : c_string (c_string s) = c_string s.
Proof.
  induction s as [|c s IH]; [reflexivity|]. simpl.
  destruct (Ascii.eqb c NUL) eqn:E; [reflexivity|].
  simpl. now rewrite E, IH.
Qed.

(** X1.  Stack effect of [diff]: with two arguments that are strings or
    numbers it returns 1, leaves every argument in its slot (a numeric first
    or second argument converted to its string), pushes exactly one table on
    top, and leaves the state shared with the host as it was. *)
Theorem diff_stack_effect (ord : arg_order) reg (args : list value)
    (a b : string_t) :
  arg_string (nth_error args 0) = Some a ->
  arg_string (nth_error args 1) = Some b ->
  exists t : table,
    call (diff ord) reg args
    = Returns 1
        (mkState reg
           (list_set (list_set args 0 (LString a)) 1 (LString b) ++ [LTable t])).
Proof.
  intros Ha Hb. eexists. unfold call. exact (diff_run ord reg args Ha Hb).
Qed.

(** X2.  [diff] reads its arguments as C strings: a Lua string with an
    embedded NUL byte is diffed up to that byte, so the call answers as it
    does for the two prefixes. *)
Theorem diff_reads_c_strings (ord : arg_order) reg reg' (a b : string_t)
    (rest rest' : list value) :
  observation (call (diff ord) reg (LString a :: LString b :: rest))
  = observation
      (call (diff ord) reg'
         (LString (c_string a) :: LString (c_string b) :: rest')).
Proof.
  unfold call.
  rewrite (@diff_run _ _ ord reg (LString a :: LString b :: rest) a b)
    by reflexivity.
  rewrite (@diff_run _ _ ord reg'
             (LString (c_string a) :: LString (c_string b) :: rest')
             (c_string a) (c_string b)) by reflexivity.
  now rewrite !observation_top, !c_string_idempotent.
Qed.

(** X3.  Numeric arguments are accepted: [luaL_checkstring] converts them,
    and the call answers as it does for their strings. *)
Theorem diff_coerces_numbers (ord : arg_order) reg (n1 n2 : lua_Number)
    (rest : list value) :
  observation (call (diff ord) reg (LNumber n1 :: LNumber n2 :: rest))
  = observation
      (call (diff ord) reg
         (LString (number_tostring n1) :: LString (number_tostring n2) :: rest)).
Proof.
  unfold call.
  rewrite (@diff_run _ _ ord reg (LNumber n1 :: LNumber n2 :: rest)
             (number_tostring n1) (number_tostring n2)) by reflexivity.
  rewrite (@diff_run _ _ ord reg
             (LString (number_tostring n1) :: LString (number_tostring n2) :: rest)
             (number_tostring n1) (number_tostring n2)) by reflexivity.
  now rewrite !observation_top.
Qed.

(** X4.  The order in which the compiler evaluates the two argument checks
    does not show when both arguments are acceptable. *)
Theorem diff_order_irrelevant reg (args : list value) (a b : string_t) :
  arg_string (nth_error args 0) = Some a ->
  arg_string (nth_error args 1) = Some b ->
  call (diff LeftToRight) reg args = call (diff RightToLeft) reg args.
Proof.
  intros Ha Hb. unfold call.
  now rewrite (diff_run LeftToRight reg args Ha Hb),
              (diff_run RightToLeft reg args Ha Hb).
Qed.

(** X5.  Whatever the frame holds, [diff] either returns one value or raises
    the argument error for its first or second argument; it never calls the
    Lua API outside its preconditions. *)
Theorem diff_returns_or_bad_argument (ord : arg_order) reg (args : list value) :
  (exists L', call (diff ord) reg args = Returns 1 L')
  \/ (exists n, (n = 1 \/ n = 2)
                /\ call (diff ord) reg args = Raises (BadArgument n)).
Proof.
  unfold call.
  destruct (arg_string (nth_error args 0)) as [a|] eqn:Ha;
    [destruct (arg_string (nth_error args 1)) as [b|] eqn:Hb|].
  - left. eexists. exact (diff_run ord reg args Ha Hb).
  - right. destruct (diff_raise ord reg args (or_intror Hb)) as (n & Hn & _ & E).
    exists (Z.of_nat (S n)). split; [destruct Hn; subst n; auto|exact E].
  - right. destruct (diff_raise ord reg args (or_introl Ha)) as (n & Hn & _ & E).
    exists (Z.of_nat (S n)). split; [destruct Hn; subst n; auto|exact E].
Qed.

(** *** Reading the table back *)

Lemma table_get_remove (t : table) n k :
  table_get (table_remove t n) k = if k =? n then LNil else table_get t k.
Proof.
  induction t as [|[k' v'] t IH]; simpl.
  - now destruct (k =? n).
  - destruct (Z.eqb_spec k' n) as [E1|E1].
    + rewrite IH. destruct (Z.eqb_spec k n) as [E2|E2]; [reflexivity|].
      destruct (Z.eqb_spec k' k); [congruence|reflexivity].
    + simpl. destruct (Z.eqb_spec k' k) as [E3|E3]; [|exact IH].
      destruct (Z.eqb_spec k n); [congruence|reflexivity].
Qed.

Lemma table_get_app_other (t : table) n (v : value) k :
  k <> n -> table_get (t ++ [(n, v)]) k = table_get t k.
Proof.
  intros Hk. induction t as [|[k' v'] t IH]; simpl.
  - destruct (Z.eqb_spec n k); [congruence|reflexivity].
  - now rewrite IH.
Qed.

Lemma table_get_app_fresh (t : table) n (v : value) :
  table_get (table_remove t n ++ [(n, v)]) n = v.
Proof.
  induction t as [|[k' v'] t IH]; simpl.
  - now rewrite Z.eqb_refl.
  - destruct (Z.eqb_spec k' n) as [E|E]; [exact IH|].
    simpl. destruct (Z.eqb_spec k' n); [congruence|exact IH].
Qed.

Lemma table_get_set (t : table) n (v : value) k :
  table_get (table_set t n v) k = if k =? n then v else table_get t k.
Proof.
  assert (H : table_get (table_remove t n ++ [(n, v)]) k
              = if k =? n then v else table_get t k).
  { destruct (Z.eqb_spec k n) as [->|E]; [apply table_get_app_fresh|].
    rewrite table_get_app_other, table_get_remove by assumption.
    destruct (Z.eqb_spec k n); [congruence|reflexivity]. }
  unfold table_set. destruct v; try exact H.
  apply table_get_remove.
Qed.

Lemma fill_table_get diffs : forall len (t : table),
  1 <= len -> len + 2 * Z.of_nat (length diffs) <= INT_MAX ->
  fst (fill_table diffs len t) = len + 2 * Z.of_nat (length diffs)
  /\ forall k,
       table_get (snd (fill_table diffs len t)) k
       = if (len <=? k) && (k <? len + 2 * Z.of_nat (length diffs))
         then nth (Z.to_nat (k - len)) (flat (c_strings diffs)) LNil
         else table_get t k.
Proof.
  induction diffs as [|d rest IH]; intros len t Hlen Hmax.
  - cbn [fill_table fst snd length]. split; [lia|]. intros k.
    destruct (Z.leb_spec len k), (Z.ltb_spec k (len + 2 * Z.of_nat 0));
      cbn [andb]; try reflexivity; lia.
  - cbn [fill_table]. cbn [length] in Hmax.
    assert (Hmax' : len + 2 + 2 * Z.of_nat (length rest) <= INT_MAX) by lia.
    unfold INT_MAX in *.
    rewrite (int_wrap_small (z := len + 1)) by (unfold INT_MAX; lia).
    rewrite (int_wrap_small (z := len + 1 + 1)) by (unfold INT_MAX; lia).
    destruct (IH (len + 1 + 1)
                (table_set
                   (table_set t len
                      (LNumber (number_of_int (operation_value (operation d)))))
                   (len + 1) (LString (c_string (text d)))))
      as [Hfst Hget]; [lia|unfold INT_MAX; lia|].
    split; [rewrite Hfst; cbn [length]; lia|].
    intros k. rewrite Hget, !table_get_set. cbn [length c_strings map flat flat_map].
    cbn [app].
    destruct (Z.leb_spec (len + 1 + 1) k),
             (Z.ltb_spec k (len + 1 + 1 + 2 * Z.of_nat (length rest))),
             (Z.leb_spec len k),
             (Z.ltb_spec k (len + 2 * Z.of_nat (S (length rest))));
      cbn [andb]; try lia.
    + replace (Z.to_nat (k - len)) with (S (S (Z.to_nat (k - (len + 1 + 1)))))
        by lia.
      reflexivity.
    + destruct (Z.eqb_spec k (len + 1)); [lia|].
      destruct (Z.eqb_spec k len); [lia|reflexivity].
    + destruct (Z.eqb_spec k (len + 1)) as [->|].
      * now replace (Z.to_nat (len + 1 - len)) with 1%nat by lia.
      * destruct (Z.eqb_spec k len) as [->|]; [|lia].
        now replace (Z.to_nat (len - len)) with 0%nat by lia.
    + destruct (Z.eqb_spec k (len + 1)); [lia|].
      destruct (Z.eqb_spec k len); [lia|reflexivity].
Qed.

Lemma nth_flat (ds : Diffs) : forall (i : nat) d,
  nth_error ds i = Some d ->
  nth (2 * i) (flat ds) LNil
  = LNumber (number_of_int (operation_value (operation d)))
  /\ nth (S (2 * i)) (flat ds) LNil = LString (text d).
Proof.
  induction ds as [|d' ds IH]; intros [|i] d H; try discriminate.
  - injection H as ->. split; reflexivity.
  - replace (2 * S i)%nat with (S (S (2 * i))) by lia.
    exact (IH i d H).
Qed.

Lemma flat_injective (ds ds' : Diffs) :
  number_of_int (-1) <> number_of_int 0 ->
  number_of_int 0 <> number_of_int 1 ->
  number_of_int (-1) <> number_of_int 1 ->
  flat ds = flat ds' -> ds = ds'.
Proof.
  intros H10 H01 H11. revert ds'.
  induction ds as [|[o s] ds IH]; intros [|[o' s'] ds'] E; try discriminate;
    [reflexivity|].
  cbn [flat flat_map app operation text] in E.
  injection E as Eo Es E. f_equal; [|now apply IH].
  f_equal; [|exact Es].
  destruct o, o'; simpl in Eo; congruence.
Qed.

(** X6.  Reading the returned table by index: when the counter does not
    overflow, the [i]-th operation of the script (counting from 0) has its
    code at key [2i+1] and its text, as a C string, at key [2i+2], whatever
    the engine returned. *)
Theorem diff_table_lookup (ord : arg_order) reg (args : list value)
    (a b : string_t) (i : nat) (d : Diff) :
  arg_string (nth_error args 0) = Some a ->
  arg_string (nth_error args 1) = Some b ->
  2 * Z.of_nat (length (diff_ops (c_string a) (c_string b))) <= INT_MAX ->
  nth_error (diff_ops (c_string a) (c_string b)) i = Some d ->
  exists t : table,
    results (call (diff ord) reg args) = Some [LTable t]
    /\ table_get t (2 * Z.of_nat i + 1)
       = LNumber (number_of_int (operation_value (operation d)))
    /\ table_get t (2 * Z.of_nat i + 2) = LString (c_string (text d)).
Proof.
  intros Ha Hb Hmax Hd.
  set (ops := diff_ops (c_string a) (c_string b)) in *.
  exists (snd (fill_table ops 1 [])).
  split.
  { unfold call. rewrite (diff_run ord reg args Ha Hb). apply results_top. }
  assert (H1 : 1 <= 1) by lia.
  assert (H2 : 1 + 2 * Z.of_nat (length ops) <= INT_MAX) by (unfold INT_MAX in *; lia).
  destruct (@fill_table_get ops 1 [] H1 H2) as [_ Hget].
  assert (Hi : (i < length ops)%nat) by (apply nth_error_Some; congruence).
  assert (Hd' : nth_error (c_strings ops) i
                = Some (mkDiff (operation d) (c_string (text d)))).
  { unfold c_strings. now rewrite nth_error_map, Hd. }
  destruct (@nth_flat (c_strings ops) i _ Hd') as [Hn Hs].
  cbn [operation text] in Hn, Hs.
  split; rewrite Hget.
  - destruct (Z.leb_spec 1 (2 * Z.of_nat i + 1)),
             (Z.ltb_spec (2 * Z.of_nat i + 1) (1 + 2 * Z.of_nat (length ops)));
      cbn [andb]; try lia.
    replace (Z.to_nat (2 * Z.of_nat i + 1 - 1)) with (2 * i)%nat by lia.
    exact Hn.
  - destruct (Z.leb_spec 1 (2 * Z.of_nat i + 2)),
             (Z.ltb_spec (2 * Z.of_nat i + 2) (1 + 2 * Z.of_nat (length ops)));
      cbn [andb]; try lia.
    replace (Z.to_nat (2 * Z.of_nat i + 2 - 1)) with (S (2 * i)) by lia.
    exact Hs.
Qed.

(** X7.  [diff] accepts exactly strings and numbers: it returns normally if
    and only if its first and its second argument are both present and each
    is a string or a number; a boolean, a table, a function or nil in either
    place is refused. *)
Theorem diff_accepts_strings_and_numbers (ord : arg_order) reg
    (args : list value) :
  (exists L', call (diff ord) reg args = Returns 1 L')
  <-> (forall i : nat, (i = 0 \/ i = 1)%nat ->
         exists v, nth_error args i = Some v
                   /\ ((exists s, v = LString s) \/ (exists n, v = LNumber n))).
Proof.
  assert (Hok : forall i : nat,
             arg_string (nth_error args i) <> None
             <-> exists v, nth_error args i = Some v
                   /\ ((exists s, v = LString s) \/ (exists n, v = LNumber n))).
  { intros i. destruct (nth_error args i) as [v|]; simpl.
    - destruct v; split; intros H; try congruence; try discriminate;
        try (destruct H as (v & [= <-] & [[s Hs]|[n Hn]]); discriminate);
        eexists; split; try reflexivity; eauto.
    - split; [congruence|]. now intros (v & H & _). }
  unfold call. split.
  - intros [L' HL] i Hi. apply Hok. intros Hnone.
    assert (Hbad : arg_string (nth_error args 0) = None
                   \/ arg_string (nth_error args 1) = None)
      by (destruct Hi; subst i; auto).
    destruct (diff_raise ord reg args Hbad) as (n & _ & _ & E).
    congruence.
  - intros H.
    destruct (arg_string (nth_error args 0)) as [a|] eqn:Ha;
      [|exfalso; now apply (proj2 (Hok 0%nat) (H 0%nat (or_introl eq_refl)))].
    destruct (arg_string (nth_error args 1)) as [b|] eqn:Hb;
      [|exfalso; now apply (proj2 (Hok 1%nat) (H 1%nat (or_intror eq_refl)))].
    eexists. exact (diff_run ord reg args Ha Hb).
Qed.

(** X8.  An error of [diff] is the argument error of an argument that is
    indeed unacceptable, and of the first such argument in the order the
    checks ran: under left-to-right evaluation argument 2 is reported only
    when argument 1 passed, under right-to-left evaluation argument 1 only
    when argument 2 passed. *)
Theorem diff_error_names_bad_argument (ord : arg_order) reg
    (args : list value) (e : error) :
  call (diff ord) reg args = Raises e ->
  exists n : nat,
    (n = 0 \/ n = 1)%nat
    /\ e = BadArgument (Z.of_nat (S n))
    /\ arg_string (nth_error args n) = None
    /\ match ord with
       | LeftToRight => n = 1%nat -> arg_string (nth_error args 0) <> None
       | RightToLeft => n = 0%nat -> arg_string (nth_error args 1) <> None
       end.
Proof.
  unfold call. intros H.
  destruct ord; unfold diff, diff_args, bind in H.
  - change 1 with (Z.of_nat 1) in H. change 2 with (Z.of_nat 2) in H.
    rewrite checkstring_run in H.
    destruct (arg_string (nth_error args 0)) as [a|] eqn:Ha.
    + rewrite checkstring_run in H.
      rewrite nth_error_list_set_other in H by discriminate.
      destruct (arg_string (nth_error args 1)) as [b|] eqn:Hb.
      * exfalso. revert H. unfold ret, lua_createtable, push. simpl.
        rewrite diff_fill_run. discriminate.
      * injection H as <-. exists 1%nat. repeat split; auto. congruence.
    + injection H as <-. exists 0%nat. repeat split; auto. discriminate.
  - change 1 with (Z.of_nat 1) in H. change 2 with (Z.of_nat 2) in H.
    rewrite checkstring_run in H.
    destruct (arg_string (nth_error args 1)) as [b|] eqn:Hb.
    + rewrite checkstring_run in H.
      rewrite nth_error_list_set_other in H by discriminate.
      destruct (arg_string (nth_error args 0)) as [a|] eqn:Ha.
      * exfalso. revert H. unfold ret, lua_createtable, push. simpl.
        rewrite diff_fill_run. discriminate.
      * injection H as <-. exists 0%nat. repeat split; auto. congruence.
    + injection H as <-. exists 1%nat. repeat split; auto. discriminate.
Qed.

(** X9.  The flat table loses nothing: when the host's numbers tell the three
    codes apart, two calls that hand back the same table were answered with
    the same edit script (scripts whose texts hold no NUL byte and which fit
    the counter). *)
Theorem diff_table_determines_script (ord ord' : arg_order) reg reg'
    (a b a' b' : string_t) (rest rest' : list value) :
  number_of_int (-1) <> number_of_int 0 ->
  number_of_int 0 <> number_of_int 1 ->
  number_of_int (-1) <> number_of_int 1 ->
  2 * Z.of_nat (length (diff_ops (c_string a) (c_string b))) <= INT_MAX ->
  2 * Z.of_nat (length (diff_ops (c_string a') (c_string b'))) <= INT_MAX ->
  Forall (fun d => nul_free (text d)) (diff_ops (c_string a) (c_string b)) ->
  Forall (fun d => nul_free (text d)) (diff_ops (c_string a') (c_string b')) ->
  results (call (diff ord) reg (LString a :: LString b :: rest))
  = results (call (diff ord') reg' (LString a' :: LString b' :: rest')) ->
  diff_ops (c_string a) (c_string b) = diff_ops (c_string a') (c_string b').
Proof.
  intros H10 H01 H11 Hmax Hmax' Hnul Hnul' E. unfold call in E.
  rewrite (@diff_run _ _ ord reg (LString a :: LString b :: rest) a b) in E
    by reflexivity.
  rewrite (@diff_run _ _ ord' reg' (LString a' :: LString b' :: rest') a' b')
    in E by reflexivity.
  rewrite !results_top, !fill_table_flat in E by assumption.
  rewrite !c_strings_nul_free in E by assumption.
  injection E as E.
  apply (f_equal table_seq) in E.
  rewrite !table_seq_of_list in E by apply flat_not_nil.
  now apply flat_injective.
Qed.

(** X10.  The loop of [diff] (diff.cxx:18-22), run with the table on top of
    the stack: it ends without an error, leaves the stack at the height it
    found with the table still on top, advances the counter by two per
    operation, gives every key from [len] up to the final counter a value,
    and leaves every other entry of the table as it was. *)
Theorem diff_fill_writes_its_keys (diffs : Diffs) (len : Z) reg
    (st : list value) (t : table) :
  1 <= len ->
  len + 2 * Z.of_nat (length diffs) <= INT_MAX ->
  exists t' : table,
    diff_fill diffs len (mkState reg (st ++ [LTable t]))
    = Returns (len + 2 * Z.of_nat (length diffs))
        (mkState reg (st ++ [LTable t']))
    /\ (forall k, len <= k < len + 2 * Z.of_nat (length diffs) ->
                  table_get t' k <> LNil)
    /\ (forall k, k < len \/ len + 2 * Z.of_nat (length diffs) <= k ->
                  table_get t' k = table_get t k).
Proof.
  intros Hlen Hmax.
  destruct (@fill_table_get diffs len t Hlen Hmax) as [Hfst Hget].
  exists (snd (fill_table diffs len t)).
  split; [now rewrite diff_fill_run, Hfst|]. split.
  - intros k Hk. rewrite Hget.
    destruct (Z.leb_spec len k),
             (Z.ltb_spec k (len + 2 * Z.of_nat (length diffs)));
      cbn [andb]; try lia.
    assert (Hin : In (nth (Z.to_nat (k - len)) (flat (c_strings diffs)) LNil)
                     (flat (c_strings diffs))).
    { apply nth_In. rewrite length_flat. unfold c_strings.
      rewrite length_map. lia. }
    exact (proj1 (Forall_forall _ _) (flat_not_nil (c_strings diffs)) _ Hin).
  - intros k Hk. rewrite Hget.
    destruct (Z.leb_spec len k),
             (Z.ltb_spec k (len + 2 * Z.of_nat (length diffs)));
      cbn [andb]; try lia; reflexivity.
Qed.

(** X11.  What [diff] answers depends only on the C strings its two
    arguments denote: two calls whose arguments, strings or numbers in any
    mix, read as the same C strings give the same table, so a number and the
    string of its digits, or a string and its prefix up to a NUL byte, are
    interchangeable. *)
Theorem diff_depends_on_c_strings (ord : arg_order) reg reg'
    (args args' : list value) (a b a' b' : string_t) :
  arg_string (nth_error args 0) = Some a ->
  arg_string (nth_error args 1) = Some b ->
  arg_string (nth_error args' 0) = Some a' ->
  arg_string (nth_error args' 1) = Some b' ->
  c_string a = c_string a' ->
  c_string b = c_string b' ->
  observation (call (diff ord) reg args)
  = observation (call (diff ord) reg' args').
Proof.
  intros Ha Hb Ha' Hb' Ea Eb. unfold call.
  rewrite (diff_run ord reg args Ha Hb), (diff_run ord reg' args' Ha' Hb').
  now rewrite !observation_top, Ea, Eb.
Qed.

End BindingExtras.

Section EngineClaims.
Variable diff_lineMode : string_t -> string_t -> Diffs.
Import Engine EngineFacts.

Lemma spec_diff_unfold a b :
  spec_diff diff_lineMode a b = cleanup_semantic (cleanup_merge (diff_raw a b)).
Proof. reflexivity. Qed.

Lemma spec_diff_texts (a b : string_t) :
  diff_text1 (spec_diff diff_lineMode a b) = a
  /\ diff_text2 (spec_diff diff_lineMode a b) = b.
Proof.
  rewrite spec_diff_unfold.
  destruct (cleanup_semantic_texts (cleanup_merge (diff_raw a b))) as [S1 S2].
  destruct (cleanup_merge_texts (diff_raw a b)) as [M1 M2].
  destruct (diff_raw_texts a b) as [R1 R2].
  split; congruence.
Qed.

(** C1.  For every pair of inputs the edit script [diff] computes stands for
    both: the texts of its EQUAL and DELETE operations, in order, make up the
    first input, those of its EQUAL and INSERT operations the second.  The
    recursion that computes it returns within its fuel. *)
Theorem diff_reconstructs_inputs (a b : string_t) :
  diff_text1 (spec_diff diff_lineMode a b) = a
  /\ diff_text2 (spec_diff diff_lineMode a b) = b
  /\ exists raw, diff_rec (S (length a + length b)) a b = Some raw.
Proof.
  rewrite <- and_assoc. split; [apply spec_diff_texts|].
  apply diff_rec_total. unfold size. apply Nat.lt_succ_diag_r.
Qed.

(** C2.  For every pair of inputs the edit script [diff] computes is
    canonical: no operation has an empty text, no two neighbours have the
    same kind, and where a DELETE and an INSERT are neighbours the DELETE
    comes first. *)
Theorem diff_is_canonical (a b : string_t) :
  canonical (spec_diff diff_lineMode a b).
Proof. rewrite spec_diff_unfold. apply cleanup_semantic_canonical. Qed.

(** C6.  The diff of an input with itself is the single operation
    [EQUAL x], and the empty script when the input is empty. *)
Theorem diff_identity (x : string_t) :
  spec_diff diff_lineMode x x
  = match x with
    | [] => []
    | _ :: _ => [mkDiff EQUAL x]
    end.
Proof.
  rewrite spec_diff_unfold, diff_raw_same.
  destruct x as [|c x]; [reflexivity|].
  cbn [op]. rewrite cleanup_merge_single by discriminate.
  apply cleanup_semantic_single. discriminate.
Qed.

(** C7.  For a nonempty [x], the diff of the empty input with [x] is the
    single operation [INSERT x], and the diff of [x] with the empty input is
    the single operation [DELETE x]. *)
Theorem diff_empty_input (x : string_t) :
  x <> [] ->
  spec_diff diff_lineMode [] x = [mkDiff INSERT x]
  /\ spec_diff diff_lineMode x [] = [mkDiff DELETE x].
Proof.
  intros Hx. rewrite !spec_diff_unfold.
  rewrite (diff_raw_empty_l x Hx), (diff_raw_empty_r x Hx).
  rewrite !cleanup_merge_single by assumption.
  split; now apply cleanup_semantic_single.
Qed.

(** With the modelled engine no text of an operation holds a NUL byte: the
    texts are pieces of the two C strings the binding passes. *)
Lemma texts_nul_free (ds : Diffs) :
  nul_free (diff_text1 ds) -> nul_free (diff_text2 ds) ->
  Forall (fun d => nul_free (text d)) ds.
Proof.
  unfold nul_free. induction ds as [|d ds IH]; intros H1 H2; [constructor|].
  rewrite diff_text1_cons in H1. rewrite diff_text2_cons in H2.
  constructor.
  - intros Hin. destruct (operation d).
    + apply H1, in_or_app. now left.
    + apply H2, in_or_app. now left.
    + apply H1, in_or_app. now left.
  - apply IH; intros Hin; [apply H1|apply H2]; apply in_or_app; now right.
Qed.

Lemma c_string_is_nul_free (s : string_t) : nul_free (c_string s).
Proof.
  unfold nul_free. induction s as [|c s IH]; simpl; [tauto|].
  destruct (Ascii.eqb c NUL) eqn:E; [tauto|].
  intros [Hc|Hin]; [|tauto]. subst c. now rewrite Ascii.eqb_refl in E.
Qed.

Lemma spec_diff_nul_free (a b : string_t) :
  Forall (fun d => nul_free (text d))
    (spec_diff diff_lineMode (c_string a) (c_string b)).
Proof.
  destruct (spec_diff_texts (c_string a) (c_string b)) as [H1 H2].
  apply texts_nul_free; [rewrite H1|rewrite H2]; apply c_string_is_nul_free.
Qed.

End EngineClaims.

(** ** The scenarios of the spec (section 8) on the model *)

Module Scenarios.
Import String.
Local Open Scope string_scope.

Example scenario_1 : scenario [] [] = [].
Proof. reflexivity. Qed.

Example scenario_2 : scenario (str "abc") (str "abc") = [equal_op "abc"].
Proof. vm_compute. reflexivity. Qed.

Example scenario_3 : scenario (str "abc") (str "abd") = [equal_op "ab"; delete_op "c"; insert_op "d"].
Proof. vm_compute. reflexivity. Qed.

Example scenario_4 :
  scenario (str "The cat.") (str "The dog.")
  = [equal_op "The "; delete_op "cat"; insert_op "dog"; equal_op "."].
Proof. vm_compute. reflexivity. Qed.

Example scenario_5 : scenario (str "abcdef") [] = [delete_op "abcdef"].
Proof. vm_compute. reflexivity. Qed.

Example scenario_6 :
  scenario (str "Hello World.") (str "Goodbye World.")
  = [delete_op "Hello"; insert_op "Goodbye"; equal_op " World."].
Proof. vm_compute. reflexivity. Qed.

End Scenarios.

(** ** The claims at sample inputs *)

Lemma diff_returns_flat_table_witness :
  2 * Z.of_nat (length sample_ops) <= INT_MAX
  /\ Forall (fun d => nul_free (text d)) sample_ops
  /\ exists t : table,
       results (call (@diff integer_numbers sample_engine LeftToRight) [] sample_args) = Some [LTable t]
       /\ table_seq t
          = flat_map
              (fun d => [LNumber (number_of_int
                                    match operation d with
                                    | DELETE => -1
                                    | EQUAL => 0
                                    | INSERT => 1
                                    end);
                         LString (text d)]) sample_ops
       /\ length (table_seq t) = (2 * length sample_ops)%nat
       /\ (forall n, table_get t n <> LNil
                     <-> 1 <= n <= 2 * Z.of_nat (length sample_ops)).
Proof.
  assert (H1 : 2 * Z.of_nat (length sample_ops) <= INT_MAX)
    by (vm_compute; discriminate).
  assert (H2 : Forall (fun d => nul_free (text d)) sample_ops).
  { apply Forall_forall. intros d Hd. apply nul_freeb_spec.
    revert d Hd. apply Forall_forall. vm_compute. repeat constructor. }
  split; [exact H1|]. split; [exact H2|].
  exact (@diff_returns_flat_table integer_numbers sample_engine LeftToRight [] sample_abc sample_abd []
           H1 H2).
Defined.

Lemma diff_charlevel_then_cleanup_witness :
  arg_string (nth_error sample_args 0) = Some sample_abc
  /\ arg_string (nth_error sample_args 1) = Some sample_abd
  /\ results (call (@diff integer_numbers sample_engine RightToLeft) [] sample_args)
     = Some [LTable (snd (fill_table
                            (@diff_cleanupSemantic sample_engine
                               (@diff_main sample_engine (c_string sample_abc)
                                  (c_string sample_abd) false)) 1 []))].
Proof.
  split; [reflexivity|]. split; [reflexivity|].
  exact (proj1 (@diff_charlevel_then_cleanup integer_numbers sample_engine RightToLeft [] sample_args
                  sample_abc sample_abd eq_refl eq_refl)).
Defined.

Lemma diff_invalid_argument_witness :
  absent (nth_error [@LNil integer_numbers; LString sample_abc] 0)
  /\ exists n, (n = 1 \/ n = 2)
       /\ call (@diff integer_numbers sample_engine LeftToRight) [] [LNil; LString sample_abc]
          = Raises (BadArgument n)
       /\ results (call (@diff integer_numbers sample_engine LeftToRight) [] [LNil; LString sample_abc])
          = None.
Proof.
  assert (H : absent (nth_error [@LNil integer_numbers; LString sample_abc] 0))
    by (right; reflexivity).
  split; [exact H|].
  exact (proj1 (@diff_invalid_argument integer_numbers sample_engine LeftToRight []
                  [LNil; LString sample_abc]) (or_introl H)).
Defined.

Lemma diff_empty_input_witness :
  sample_abc <> []
  /\ spec_diff no_lineMode [] sample_abc = [mkDiff INSERT sample_abc]
  /\ spec_diff no_lineMode sample_abc [] = [mkDiff DELETE sample_abc].
Proof.
  split; [discriminate|].
  apply (diff_empty_input no_lineMode sample_abc). discriminate.
Defined.

Lemma diff_stack_effect_witness :
  arg_string (nth_error sample_args 0) = Some sample_abc
  /\ arg_string (nth_error sample_args 1) = Some sample_abd
  /\ exists t : table,
       call (@diff integer_numbers sample_engine LeftToRight) [] sample_args
       = Returns 1
           (mkState []
              (list_set (list_set sample_args 0 (LString sample_abc)) 1
                 (LString sample_abd) ++ [LTable t])).
Proof.
  split; [reflexivity|]. split; [reflexivity|].
  exact (@diff_stack_effect integer_numbers sample_engine LeftToRight []
           sample_args sample_abc sample_abd eq_refl eq_refl).
Defined.

Lemma diff_order_irrelevant_witness :
  arg_string (nth_error sample_args 0) = Some sample_abc
  /\ arg_string (nth_error sample_args 1) = Some sample_abd
  /\ call (@diff integer_numbers sample_engine LeftToRight) [] sample_args
     = call (@diff integer_numbers sample_engine RightToLeft) [] sample_args.
Proof.
  split; [reflexivity|]. split; [reflexivity|].
  exact (@diff_order_irrelevant integer_numbers sample_engine []
           sample_args sample_abc sample_abd eq_refl eq_refl).
Defined.

Lemma diff_table_lookup_witness :
  arg_string (nth_error sample_args 0) = Some sample_abc
  /\ arg_string (nth_error sample_args 1) = Some sample_abd
  /\ 2 * Z.of_nat (length sample_ops) <= INT_MAX
  /\ nth_error sample_ops 1 = Some (mkDiff DELETE ["c"%char])
  /\ exists t : @table integer_numbers,
       results (call (@diff integer_numbers sample_engine LeftToRight) [] sample_args)
       = Some [LTable t]
       /\ table_get t 3 = @LNumber integer_numbers (-1)
       /\ table_get t 4 = LString ["c"%char].
Proof.
  assert (H1 : 2 * Z.of_nat (length sample_ops) <= INT_MAX)
    by (vm_compute; discriminate).
  assert (H2 : nth_error sample_ops 1 = Some (mkDiff DELETE ["c"%char]))
    by (vm_compute; reflexivity).
  split; [reflexivity|]. split; [reflexivity|].
  split; [exact H1|]. split; [exact H2|].
  exact (@diff_table_lookup integer_numbers sample_engine LeftToRight []
           sample_args sample_abc sample_abd 1 (mkDiff DELETE ["c"%char])
           eq_refl eq_refl H1 H2).
Defined.

Lemma diff_error_names_bad_argument_witness :
  call (@diff integer_numbers sample_engine LeftToRight) []
    [@LString integer_numbers sample_abc]
  = Raises (BadArgument 2)
  /\ exists n : nat,
       (n = 0 \/ n = 1)%nat
       /\ BadArgument 2 = BadArgument (Z.of_nat (S n))
       /\ arg_string (nth_error [@LString integer_numbers sample_abc] n) = None
       /\ (n = 1%nat ->
           arg_string (nth_error [@LString integer_numbers sample_abc] 0) <> None).
Proof.
  split; [reflexivity|].
  exact (@diff_error_names_bad_argument integer_numbers sample_engine
           LeftToRight [] [@LString integer_numbers sample_abc]
           (BadArgument 2) eq_refl).
Defined.

Lemma diff_table_determines_script_witness :
  2 * Z.of_nat (length sample_ops) <= INT_MAX
  /\ Forall (fun d => nul_free (text d)) sample_ops
  /\ results (call (@diff integer_numbers sample_engine LeftToRight) [] sample_args)
     = results (call (@diff integer_numbers sample_engine RightToLeft) []
                  (sample_args ++ [LNil]))
  /\ sample_ops = sample_ops.
Proof.
  assert (H1 : 2 * Z.of_nat (length sample_ops) <= INT_MAX)
    by (vm_compute; discriminate).
  assert (H2 : Forall (fun d => nul_free (text d)) sample_ops).
  { apply Forall_forall. intros d Hd. apply nul_freeb_spec.
    revert d Hd. apply Forall_forall. vm_compute. repeat constructor. }
  assert (H3 : results (call (@diff integer_numbers sample_engine LeftToRight) []
                          sample_args)
               = results (call (@diff integer_numbers sample_engine RightToLeft) []
                            (sample_args ++ [LNil])))
    by (vm_compute; reflexivity).
  split; [exact H1|]. split; [exact H2|]. split; [exact H3|].
  refine (@diff_table_determines_script integer_numbers sample_engine
            LeftToRight RightToLeft [] [] sample_abc sample_abd
            sample_abc sample_abd [] [LNil] _ _ _ H1 H1 H2 H2 H3);
    discriminate.
Defined.

Lemma diff_fill_writes_its_keys_witness :
  1 <= 1
  /\ 1 + 2 * Z.of_nat (length sample_ops) <= INT_MAX
  /\ exists t' : table,
       @diff_fill integer_numbers sample_ops 1
         (mkState [] ([LBoolean true] ++ [LTable [(9, LBoolean false)]]))
       = Returns (1 + 2 * Z.of_nat (length sample_ops))
           (mkState [] ([LBoolean true] ++ [LTable t']))
       /\ (forall k, 1 <= k < 1 + 2 * Z.of_nat (length sample_ops) ->
                     table_get t' k <> LNil)
       /\ (forall k, k < 1 \/ 1 + 2 * Z.of_nat (length sample_ops) <= k ->
                     table_get t' k = table_get [(9, LBoolean false)] k).
Proof.
  assert (H1 : 1 <= 1) by (vm_compute; discriminate).
  assert (H2 : 1 + 2 * Z.of_nat (length sample_ops) <= INT_MAX)
    by (vm_compute; discriminate).
  split; [exact H1|]. split; [exact H2|].
  exact (@diff_fill_writes_its_keys integer_numbers sample_ops 1 []
           [LBoolean true] [(9, LBoolean false)] H1 H2).
Defined.

Lemma diff_depends_on_c_strings_witness :
  arg_string (nth_error [@LNumber integer_numbers 12; LString ["a"; "b"; NUL; "x"]%char] 0)
  = Some ["1"; "2"]%char
  /\ arg_string (nth_error [@LNumber integer_numbers 12; LString ["a"; "b"; NUL; "x"]%char] 1)
     = Some ["a"; "b"; NUL; "x"]%char
  /\ arg_string (nth_error [@LString integer_numbers ["1"; "2"]%char; LString ["a"; "b"]%char] 0)
     = Some ["1"; "2"]%char
  /\ arg_string (nth_error [@LString integer_numbers ["1"; "2"]%char; LString ["a"; "b"]%char] 1)
     = Some ["a"; "b"]%char
  /\ c_string ["1"; "2"]%char = c_string ["1"; "2"]%char
  /\ c_string ["a"; "b"; NUL; "x"]%char = c_string ["a"; "b"]%char
  /\ observation
       (call (@diff integer_numbers sample_engine LeftToRight) []
          [@LNumber integer_numbers 12; LString ["a"; "b"; NUL; "x"]%char])
     = observation
         (call (@diff integer_numbers sample_engine LeftToRight) []
            [@LString integer_numbers ["1"; "2"]%char; LString ["a"; "b"]%char]).
Proof.
  assert (H0 : arg_string (nth_error [@LNumber integer_numbers 12; LString ["a"; "b"; NUL; "x"]%char] 0)
               = Some ["1"; "2"]%char)
    by (vm_compute; reflexivity).
  assert (H3 : c_string ["a"; "b"; NUL; "x"]%char = c_string ["a"; "b"]%char)
    by (vm_compute; reflexivity).
  split; [exact H0|]. split; [reflexivity|]. split; [reflexivity|].
  split; [reflexivity|]. split; [reflexivity|]. split; [exact H3|].
  exact (@diff_depends_on_c_strings integer_numbers sample_engine LeftToRight
           [] []
           [@LNumber integer_numbers 12; LString ["a"; "b"; NUL; "x"]%char]
           [@LString integer_numbers ["1"; "2"]%char; LString ["a"; "b"]%char]
           _ _ _ _ H0 eq_refl eq_refl eq_refl eq_refl H3).
Defined.
